(** * Verification of qbak's backup core: naming, collision resolution,
    the atomic copy protocol, the directory walk and the operation registry.

    Modelling conventions.
    - Text (file names, suffixes, formats) is ASCII, as [String.string]; a
      Rust [str] byte length is then the [String.length].
    - A [Path] is the list of its normalised components; an absolute path
      starts with the component ["/"].  [Path::file_name], [Path::parent]
      and [Path::join] follow their std definitions on that form.
    - The filesystem is a function from paths to nodes; [exists] is
      [is_Some] of the lookup. *)

From Stdlib Require Import Ascii String Strings.Byte List Lia Arith DecimalString
  NArith DecimalNat DecimalPos DecimalN.
From stdpp Require Import base gmap sets strings.
Import ListNotations.

Open Scope bool_scope.

(* ------------------------------------------------------------------ *)
(** ** Errors and the [Result] type (src/error.rs) *)

Abbreviation PathBuf := (list string) (only parsing).

(** [std::io::ErrorKind] values the program can meet. *)
Inductive IoErrorKind := NotFound | PermissionDeniedIo | OtherIo.

Inductive QbakError :=
| SourceNotFound (path : PathBuf)
| FilenameTooLong (length max : nat)
| InsufficientSpace (needed available : nat)
| PermissionDenied (path : PathBuf)
| InvalidFilesystemChars (chars : string)
| SymlinkLoop (path : PathBuf)
| BackupExists (path : PathBuf)
| PathTraversal (path : PathBuf)
| Io (kind : IoErrorKind)
| ConfigError (message : string)  (* QbakError::Config *)
| Interrupted
| Validation (message : string).

(** [QbakError::is_recoverable] *)
Definition is_recoverable (e : QbakError) : bool :=
  match e with
  | SourceNotFound _ | PermissionDenied _ | Validation _ => true
  | _ => false
  end.

Inductive Result (A : Type) :=
| Ok (a : A)
| Err (e : QbakError).
Arguments Ok {A} a.
Arguments Err {A} e.

Definition bind {A B} (m : Result A) (k : A -> Result B) : Result B :=
  match m with Ok a => k a | Err e => Err e end.

Notation "'let?' x := m 'in' k" := (bind m (fun x => k))
  (at level 200, x binder, m at level 100, k at level 200).

(* ------------------------------------------------------------------ *)
(** ** Paths (std::path) *)

(** [Path::file_name]: the last component, unless it is the root, ["."]
    or [".."]. *)
Definition file_name (p : PathBuf) : option string :=
  match last p with
  | Some c =>
      if String.eqb c "/" || String.eqb c "." || String.eqb c ".."
      then None else Some c
  | None => None
  end.

(** [Path::parent]: [None] for the empty path and the root, otherwise the
    path without its last component (the empty path for a one-component
    relative path). *)
Definition parent (p : PathBuf) : option PathBuf :=
  match p with
  | [] => None
  | [c] => if String.eqb c "/" then None else Some []
  | _ => Some (removelast p)
  end.

(** [Path::join] with a relative one-component name. *)
Definition join (dir : PathBuf) (name : string) : PathBuf := dir ++ [name].

(** [path.parent().unwrap_or(Path::new("."))] *)
Definition parent_or_dot (p : PathBuf) : PathBuf :=
  match parent p with Some d => d | None => ["."] end.

(* ------------------------------------------------------------------ *)
(** ** String helpers *)

Local Open Scope string_scope.

(** [str::rfind(c)]: byte index of the last occurrence of [c]. *)
Fixpoint rfind (c : ascii) (s : string) : option nat :=
  match s with
  | EmptyString => None
  | String a s' =>
      match rfind c s' with
      | Some i => Some (S i)
      | None => if Ascii.eqb a c then Some 0 else None
      end
  end.

(** [&s[..i]] and [&s[i..]] *)
Definition slice_to (s : string) (i : nat) : string := substring 0 i s.
Definition slice_from (s : string) (i : nat) : string :=
  substring i (String.length s - i)%nat s.

(** [split_filename] (src/naming.rs) *)
Definition split_filename (filename : string) : string * string :=
  match rfind "." filename with
  | Some dot_pos =>
      if ((0 <? dot_pos) && (dot_pos <? String.length filename - 1))%nat then
        (slice_to filename dot_pos, slice_from filename (dot_pos + 1))
      else if (dot_pos =? String.length filename - 1)%nat then
        (slice_to filename dot_pos, "")
      else (filename, "")
  | None => (filename, "")
  end.

Example split_filename_tests :
  split_filename "file.txt" = ("file", "txt") /\
  split_filename "file.tar.gz" = ("file.tar", "gz") /\
  split_filename "file" = ("file", "") /\
  split_filename ".hidden" = (".hidden", "") /\
  split_filename "file." = ("file", "").
Proof. repeat split; reflexivity. Qed.

(** Decimal rendering of an unsigned integer ([format!("{n}")]). *)
Definition decimal (n : nat) : string :=
  NilZero.string_of_uint (Nat.to_uint n).

(** Zero padding on the left up to [w] characters. *)
Definition pad_left (w : nat) (s : string) : string :=
  String.concat "" (List.repeat "0" (w - String.length s)%nat) ++ s.

(** ASCII [char::is_control] (general category Cc). *)
Definition is_control (c : ascii) : bool :=
  let n := nat_of_ascii c in ((n <? 32) || (n =? 127))%nat.

(** ASCII [char::to_uppercase]. *)
Definition ascii_upper (c : ascii) : ascii :=
  let n := nat_of_ascii c in
  if ((97 <=? n) && (n <=? 122))%nat then ascii_of_nat (n - 32) else c.

Definition to_uppercase (s : string) : string :=
  string_of_list_ascii (map ascii_upper (list_ascii_of_string s)).

(* ------------------------------------------------------------------ *)
(** ** Configuration (src/config.rs) *)

Record Config := mkConfig {
  timestamp_format : string;
  backup_suffix : string;
  preserve_permissions : bool;
  follow_symlinks : bool;
  include_hidden : bool;
  max_filename_length : nat
}.

Definition default_config : Config := {|
  timestamp_format := "YYYYMMDDTHHMMSS";
  backup_suffix := "qbak";
  preserve_permissions := true;
  follow_symlinks := true;
  include_hidden := true;
  max_filename_length := 255
|}.

(* ------------------------------------------------------------------ *)
(** ** Timestamps (chrono) *)

Record DateTime := mkDateTime {
  year : nat; month : nat; day : nat;
  hour : nat; minute : nat; second : nat
}.

(** The strftime items used by [format_timestamp]. *)
Inductive FmtItem := Lit (c : ascii) | PctY | Pctm | Pctd | PctH | PctM | PctS.

(** chrono's rendering of one item: [%Y] is zero-padded to four digits for
    years up to 9999 and written with an explicit sign beyond; the other
    fields are zero-padded to two digits. *)
Definition render_item (t : DateTime) (i : FmtItem) : string :=
  match i with
  | Lit c => String c EmptyString
  | PctY => if (year t <? 10000)%nat then pad_left 4 (decimal (year t))
            else "+" ++ decimal (year t)
  | Pctm => pad_left 2 (decimal (month t))
  | Pctd => pad_left 2 (decimal (day t))
  | PctH => pad_left 2 (decimal (hour t))
  | PctM => pad_left 2 (decimal (minute t))
  | PctS => pad_left 2 (decimal (second t))
  end.

Definition strftime (items : list FmtItem) (t : DateTime) : string :=
  String.concat "" (map (render_item t) items).

(** ["%Y%m%dT%H%M%S"] *)
Definition compact_format : list FmtItem :=
  [PctY; Pctm; Pctd; Lit "T"; PctH; PctM; PctS].

(** [format_timestamp] (src/naming.rs) *)
Definition format_timestamp (timestamp : DateTime) (format : string) : string :=
  if String.eqb format "YYYYMMDDTHHMMSS" then strftime compact_format timestamp
  else strftime compact_format timestamp.

(* ------------------------------------------------------------------ *)
(** ** Backup names (src/naming.rs) *)

(** [validate_filename_length] *)
Definition validate_filename_length (filename : string) (max_length : nat)
  : Result unit :=
  if (max_length <? String.length filename)%nat then
    Err (FilenameTooLong (String.length filename) max_length)
  else Ok tt.

(** The characters < > : | ? * and the double quote (ASCII 34). *)
Definition INVALID_CHARS : list ascii :=
  ["<"%char; ">"%char; ":"%char; ascii_of_nat 34; "|"%char; "?"%char; "*"%char].

Definition RESERVED_NAMES : list string :=
  ["CON"; "PRN"; "AUX"; "NUL"; "COM1"; "COM2"; "COM3"; "COM4"; "COM5";
   "COM6"; "COM7"; "COM8"; "COM9"; "LPT1"; "LPT2"; "LPT3"; "LPT4"; "LPT5";
   "LPT6"; "LPT7"; "LPT8"; "LPT9"].

Definition is_invalid_char (c : ascii) : bool :=
  existsb (Ascii.eqb c) INVALID_CHARS.

(** [validate_filesystem_chars] *)
Definition validate_filesystem_chars (filename : string) : Result unit :=
  let invalid_chars := List.filter is_invalid_char (list_ascii_of_string filename) in
  match invalid_chars with
  | _ :: _ => Err (InvalidFilesystemChars (string_of_list_ascii invalid_chars))
  | [] =>
    let stem := to_uppercase (fst (split_filename filename)) in
    if existsb (String.eqb stem) RESERVED_NAMES then
      Err (InvalidFilesystemChars ("Reserved name: " ++ stem))
    else if existsb is_control (list_ascii_of_string filename) then
      Err (InvalidFilesystemChars "Control characters")
    else Ok tt
  end.

(** The name built by [generate_backup_name] before validation. *)
Definition backup_name_of (stem extension timestamp_str suffix : string) : string :=
  if String.eqb extension "" then
    stem ++ "-" ++ timestamp_str ++ "-" ++ suffix
  else stem ++ "-" ++ timestamp_str ++ "-" ++ suffix ++ "." ++ extension.

(** [generate_backup_name]; [now] is the value of [Utc::now()]. *)
Definition generate_backup_name (now : DateTime) (source : PathBuf)
  (config : Config) : Result PathBuf :=
  let timestamp_str := format_timestamp now (timestamp_format config) in
  match file_name source with
  | None => Err (Validation "Invalid source filename")
  | Some source_name =>
      let '(stem, extension) := split_filename source_name in
      let backup_name :=
        backup_name_of stem extension timestamp_str (backup_suffix config) in
      let? _ := validate_filename_length backup_name (max_filename_length config) in
      let? _ := validate_filesystem_chars backup_name in
      Ok (join (parent_or_dot source) backup_name)
  end.

(** The [new_name] of [resolve_collision]'s loop. *)
Definition new_name (stem extension : string) (counter : nat) : string :=
  if String.eqb extension "" then stem ++ "-" ++ decimal counter
  else stem ++ "-" ++ decimal counter ++ "." ++ extension.

(** The probing loop of [resolve_collision], from [counter] on, with
    [fuel] candidates left. *)
Fixpoint probe_counters (path_exists : PathBuf -> bool) (parent : PathBuf)
  (stem extension : string) (counter fuel : nat) : Result PathBuf :=
  match fuel with
  | 0 => Err (Validation "Too many backup collisions (>9999)")
  | S fuel' =>
      let new_path := join parent (new_name stem extension counter) in
      if negb (path_exists new_path) then Ok new_path
      else probe_counters path_exists parent stem extension (S counter) fuel'
  end.

(** [resolve_collision]; [path_exists] is [Path::exists] on the current
    filesystem. *)
Definition resolve_collision (path_exists : PathBuf -> bool) (base_path : PathBuf)
  : Result PathBuf :=
  if negb (path_exists base_path) then Ok base_path
  else
    let parent := parent_or_dot base_path in
    match file_name base_path with
    | None => Err (Validation "Invalid backup filename")
    | Some filename =>
        let '(stem, extension) := split_filename filename in
        probe_counters path_exists parent stem extension 1 9999
    end.

(** [create_temp_backup_path] (src/backup.rs); [process_id] is
    [std::process::id()]. *)
Definition create_temp_backup_path (process_id : nat) (backup_path : PathBuf)
  : Result PathBuf :=
  let parent := parent_or_dot backup_path in
  match file_name backup_path with
  | None => Err (Validation "Invalid backup filename")
  | Some filename =>
      Ok (join parent (".qbak_temp_" ++ decimal process_id ++ "_" ++ filename))
  end.

Example generate_backup_name_test :
  generate_backup_name (mkDateTime 2025 1 1 12 0 0) ["/"; "tmp"; "test.txt"]
    default_config
  = Ok ["/"; "tmp"; "test-20250101T120000-qbak.txt"].
Proof. reflexivity. Qed.

Example validate_tests :
  validate_filesystem_chars "normal-file.txt" = Ok tt /\
  validate_filesystem_chars "file<test>.txt" = Err (InvalidFilesystemChars "<>") /\
  validate_filesystem_chars "con.txt" = Err (InvalidFilesystemChars "Reserved name: CON").
Proof. repeat split; reflexivity. Qed.

Example temp_path_test :
  create_temp_backup_path 4242 ["/"; "tmp"; "a.txt"]
  = Ok ["/"; "tmp"; ".qbak_temp_4242_a.txt"].
Proof. reflexivity. Qed.

(* ------------------------------------------------------------------ *)
(** ** The filesystem and the process state *)

(** A filesystem entry: a regular file with its permission bits and
    contents, or a directory with its permission bits. *)
Inductive Node :=
| FileNode (perm : nat) (bytes : list byte)
| DirNode (perm : nat).

Abbreviation FileSystem := (gmap (list string) Node) (only parsing).

(** The permission bits of a file created by [File::create]. *)
Definition DEFAULT_FILE_PERM : nat := 420.

(** [is_prefix p q]: [q] is [p] or lies below it. *)
Fixpoint is_prefix (p q : PathBuf) : bool :=
  match p, q with
  | [], _ => true
  | a :: p', b :: q' => String.eqb a b && is_prefix p' q'
  | _ :: _, [] => false
  end.

(** The process state: the filesystem, the active-operations set of the
    global [BackupContext], the stored value of its interrupt flag, and a
    clock counting the reads of that flag. *)
Record World := mkWorld {
  w_fs : FileSystem;
  w_active : gset (list string);
  w_flag : bool;
  w_clock : nat
}.

Definition set_fs (fs : FileSystem) (w : World) : World :=
  mkWorld fs (w_active w) (w_flag w) (w_clock w).
Definition set_active (a : gset (list string)) (w : World) : World :=
  mkWorld (w_fs w) a (w_flag w) (w_clock w).

(** Computations over the process state that may fail; the effects done
    before a failure stay. *)
Definition M (A : Type) : Type := World -> Result A * World.

Definition ret {A} (a : A) : M A := fun w => (Ok a, w).
Definition fail {A} (e : QbakError) : M A := fun w => (Err e, w).
Definition mbind {A B} (m : M A) (k : A -> M B) : M B :=
  fun w => match m w with
           | (Ok a, w') => k a w'
           | (Err e, w') => (Err e, w')
           end.
Definition lift {A} (r : Result A) : M A := fun w => (r, w).
Definition get_world : M World := fun w => (Ok w, w).
Definition modify (f : World -> World) : M unit := fun w => (Ok tt, f w).

Notation "'let!' x := m 'in' k" := (mbind m (fun x => k))
  (at level 200, x binder, m at level 100, k at level 200).
Notation "m ;; k" := (mbind m (fun _ => k))
  (at level 100, k at level 200, right associativity).

(* ------------------------------------------------------------------ *)
(** ** std::fs operations *)

Definition path_exists (fs : FileSystem) (p : PathBuf) : bool :=
  bool_decide (is_Some (fs !! p)).

Definition is_dir_node (n : option Node) : bool :=
  match n with Some (DirNode _) => true | _ => false end.

Definition node_len (n : Node) : nat :=
  match n with FileNode _ b => length b | DirNode _ => 4096 end.

Definition node_perm (n : Node) : nat :=
  match n with FileNode p _ => p | DirNode p => p end.

(** [fs::remove_file] *)
Definition remove_file (p : PathBuf) : M unit := fun w =>
  match w_fs w !! p with
  | Some (FileNode _ _) => (Ok tt, set_fs (delete p (w_fs w)) w)
  | Some (DirNode _) => (Err (Io OtherIo), w)
  | None => (Err (Io NotFound), w)
  end.

(** The owner's write and read bits of a permission mode (0o200 and
    0o400): the process owns the trees it backs up and is not root. *)
Definition owner_can_write (perm : nat) : bool := Nat.testbit perm 7.
Definition owner_can_read (perm : nat) : bool := Nat.testbit perm 8.

(** [has_entries fs d]: some path lies directly inside [d]. *)
Definition has_entries (fs : FileSystem) (d : PathBuf) : bool :=
  existsb (fun kv => match kv.1 with
                     | [] => false
                     | q => bool_decide (removelast q = d)
                     end) (map_to_list fs).

(** Unlinking an entry needs write permission on the directory holding
    it, so [fs::remove_dir_all p] fails with EACCES when the parent of [p]
    or a non-empty directory of the tree under [p] is read-only. *)
Definition remove_dir_all_denied (fs : FileSystem) (p : PathBuf) : bool :=
  match fs !! removelast p with
  | Some (DirNode perm) => negb (owner_can_write perm)
  | _ => false
  end
  || existsb (fun kv => match kv.2 with
                        | DirNode perm =>
                            is_prefix p kv.1 && negb (owner_can_write perm)
                            && has_entries fs kv.1
                        | FileNode _ _ => false
                        end) (map_to_list fs).

(** [fs::remove_dir_all]: the directory and everything below it.  On
    EACCES it stops at the first entry it cannot unlink; which siblings
    went before depends on the order of [read_dir], and the model keeps
    them all.  [p] itself, unlinked last, stays in every order. *)
Definition remove_dir_all (p : PathBuf) : M unit := fun w =>
  match w_fs w !! p with
  | Some (DirNode _) =>
      if remove_dir_all_denied (w_fs w) p then (Err (Io PermissionDeniedIo), w)
      else (Ok tt, set_fs (filter (fun kv => is_prefix p kv.1 = false) (w_fs w)) w)
  | Some (FileNode _ _) => (Err (Io OtherIo), w)
  | None => (Err (Io NotFound), w)
  end.

(** [let _ = fs::remove_file(p);] *)
Definition remove_file_ignored (p : PathBuf) : M unit := fun w =>
  (Ok tt, snd (remove_file p w)).

(** [fs::metadata] *)
Definition metadata (p : PathBuf) : M Node := fun w =>
  match w_fs w !! p with
  | Some n => (Ok n, w)
  | None => (Err (Io NotFound), w)
  end.

(** The directory [File::create] writes into must exist; the current
    directory and the root always do. *)
Definition parent_is_dir (fs : FileSystem) (p : PathBuf) : bool :=
  match parent_or_dot p with
  | [] | ["."] | ["/"] => true
  | d => is_dir_node (fs !! d)
  end.

(** [fs::File::create]: creates the file, or truncates an existing one
    (keeping its permissions). *)
Definition file_create (p : PathBuf) : M unit := fun w =>
  if negb (parent_is_dir (w_fs w) p) then (Err (Io NotFound), w) else
  match w_fs w !! p with
  | Some (DirNode _) => (Err (Io OtherIo), w)
  | Some (FileNode perm _) => (Ok tt, set_fs (<[p := FileNode perm []]> (w_fs w)) w)
  | None => (Ok tt, set_fs (<[p := FileNode DEFAULT_FILE_PERM []]> (w_fs w)) w)
  end.

(** [write_all] through the handle opened by [File::create]. *)
Definition write_all (p : PathBuf) (chunk : list byte) : M unit := fun w =>
  match w_fs w !! p with
  | Some (FileNode perm b) =>
      (Ok tt, set_fs (<[p := FileNode perm (b ++ chunk)]> (w_fs w)) w)
  | _ => (Ok tt, w)
  end.

(** [fs::set_permissions] *)
Definition set_permissions (p : PathBuf) (perm : nat) : M unit := fun w =>
  match w_fs w !! p with
  | Some (FileNode _ b) => (Ok tt, set_fs (<[p := FileNode perm b]> (w_fs w)) w)
  | Some (DirNode _) => (Ok tt, set_fs (<[p := DirNode perm]> (w_fs w)) w)
  | None => (Err (Io NotFound), w)
  end.

(** [fs::rename] of a regular file. *)
Definition rename (src dst : PathBuf) : M unit := fun w =>
  match w_fs w !! src with
  | None => (Err (Io NotFound), w)
  | Some n =>
      match w_fs w !! dst with
      | Some (DirNode _) => (Err (Io OtherIo), w)
      | _ => (Ok tt, set_fs (<[dst := n]> (delete src (w_fs w))) w)
      end
  end.

(* ------------------------------------------------------------------ *)
(** ** The interrupt flag, the registry and the guard (src/signal.rs) *)

Section Process.

(** [signal_at n]: the Ctrl-C handler has stored [true] into the interrupt
    flag before its [n]-th read. *)
Variable signal_at : nat -> bool.
(** [std::process::id()] and [Utc::now()] *)
Variable process_id : nat.
Variable now : DateTime.

(** [is_interrupted()]: a [SeqCst] load of the flag. *)
Definition is_interrupted : M bool := fun w =>
  let f := w_flag w || signal_at (w_clock w) in
  (Ok f, mkWorld (w_fs w) (w_active w) f (S (w_clock w))).

(** [BackupContext::set_interrupted] *)
Definition set_interrupted (interrupted : bool) : M unit :=
  modify (fun w => mkWorld (w_fs w) (w_active w) interrupted (w_clock w)).

Record BackupOperationGuard := mkGuard {
  g_backup_path : PathBuf;
  g_registered : bool;
  g_completed : bool
}.

(** [BackupContext::register_operation] (and [create_backup_guard]). *)
Definition register_operation (backup_path : PathBuf) : M BackupOperationGuard :=
  modify (fun w => set_active ({[backup_path]} ∪ w_active w) w);;
  ret (mkGuard backup_path true false).

(** [BackupContext::remove_operation] *)
Definition remove_operation (backup_path : PathBuf) : M unit :=
  modify (fun w => set_active (w_active w ∖ {[backup_path]}) w).

(** [BackupContext::get_active_operations] *)
Definition get_active_operations : M (list PathBuf) := fun w =>
  (Ok (elements (w_active w)), w).

(** [impl Drop for BackupOperationGuard] *)
Definition guard_drop (g : BackupOperationGuard) : M unit :=
  if g_registered g && negb (g_completed g) then
    let! interrupted := is_interrupted in
    if interrupted then ret tt else remove_operation (g_backup_path g)
  else ret tt.

(** [BackupOperationGuard::complete]: [self] is dropped when it returns. *)
Definition complete (g : BackupOperationGuard) : M unit :=
  remove_operation (g_backup_path g);;
  guard_drop (mkGuard (g_backup_path g) false true).

(** The cleanup loop over the snapshot of active operations; the result of
    each removal is only logged. *)
Fixpoint cleanup_paths (active_ops : list PathBuf) : M unit :=
  match active_ops with
  | [] => ret tt
  | backup_path :: rest =>
      (fun w =>
         if path_exists (w_fs w) backup_path then
           let cleanup_result :=
             if is_dir_node (w_fs w !! backup_path)
             then remove_dir_all backup_path w
             else remove_file backup_path w in
           (Ok tt, snd cleanup_result)
         else (Ok tt, w));;
      cleanup_paths rest
  end.

(** [BackupContext::cleanup_active_operations_with_mode] *)
Definition cleanup_active_operations_with_mode (silent : bool) : M unit :=
  let! active_ops := get_active_operations in
  cleanup_paths active_ops;;
  modify (fun w => set_active ∅ w).

(** [BackupContext::cleanup_active_operations] *)
Definition cleanup_active_operations : M unit :=
  cleanup_active_operations_with_mode false.

(** Runs [body] while [guard] is alive: on success the body has called
    [complete]; on an early [?] return the guard is dropped. *)
Definition with_guard {A} (guard : BackupOperationGuard) (body : M A) : M A :=
  fun w =>
    match body w with
    | (Ok a, w') => (complete guard;; ret a) w'
    | (Err e, w') => (guard_drop guard;; fail e) w'
    end.

(* ------------------------------------------------------------------ *)
(** ** The chunked copy (src/backup.rs) *)

Definition BUF_SIZE : nat := 64 * 1024.

(** The successive results of [source_file.read(&mut buffer)]. *)
Inductive ReadStream :=
| EOF
| Chunk (bytes : list byte) (rest : ReadStream)
| ReadFail (e : QbakError).

(** Reads of a regular file fill the buffer until the last one. *)
Fixpoint read_chunks (fuel : nat) (bytes : list byte) : ReadStream :=
  match fuel, bytes with
  | _, [] => EOF
  | 0, _ => Chunk bytes EOF
  | S fuel', _ => Chunk (firstn BUF_SIZE bytes) (read_chunks fuel' (skipn BUF_SIZE bytes))
  end.

Definition read_stream (n : Node) : ReadStream :=
  match n with
  | FileNode _ bytes => read_chunks (length bytes) bytes
  | DirNode _ => ReadFail (Io OtherIo)   (* EISDIR *)
  end.

(** The [loop] of [copy_file_with_interrupt_check]. *)
Fixpoint copy_loop (dest : PathBuf) (reads : ReadStream) : M unit :=
  let! interrupted := is_interrupted in
  if interrupted then
    remove_file_ignored dest;;
    fail Interrupted
  else
    match reads with
    | EOF => ret tt
    | Chunk bytes rest => write_all dest bytes;; copy_loop dest rest
    | ReadFail e => fail e
    end.

(** [copy_file_with_interrupt_check]: the reads go through the handle
    opened on [source], i.e. to the node at [source] once [dest] is
    created. *)
Definition copy_file_with_interrupt_check (source dest : PathBuf) : M unit :=
  let! opened := metadata source in
  file_create dest;;
  let! w := get_world in
  let source_node := match w_fs w !! source with Some n => n | None => opened end in
  copy_loop dest (read_stream source_node);;
  ret tt.

(* ------------------------------------------------------------------ *)
(** ** Single-file backup (src/backup.rs, src/utils.rs) *)

(** The textual form of a path. *)
Definition path_to_string (p : PathBuf) : string :=
  match p with
  | "/" :: rest => "/" ++ String.concat "/" rest
  | _ => String.concat "/" p
  end.

(** [validate_source]; the paths of the model are already canonical. *)
Definition validate_source (path : PathBuf) : M unit := fun w =>
  if negb (path_exists (w_fs w) path) then (Err (SourceNotFound path), w)
  else match String.index 0 ".." (path_to_string path) with
       | Some _ => (Err (PathTraversal path), w)
       | None => (Ok tt, w)
       end.

(** [calculate_directory_size]: the lengths of all files below [dir]. *)
Definition directory_size (fs : FileSystem) (dir : PathBuf) : nat :=
  map_fold (fun q n acc =>
              match n with
              | FileNode _ b => if is_prefix dir q && negb (bool_decide (dir = q))
                                then acc + length b else acc
              | DirNode _ => acc
              end) 0 fs.

(** [calculate_size] *)
Definition calculate_size (path : PathBuf) : M nat :=
  let! n := metadata path in
  match n with
  | FileNode _ b => ret (length b)
  | DirNode _ => fun w => (Ok (directory_size (w_fs w) path), w)
  end.

(** [copy_permissions] *)
Definition copy_permissions (source dest : PathBuf) : M unit :=
  let! n := metadata source in
  set_permissions dest (node_perm n).

(** [copy_timestamps]: reads the source metadata and sets nothing. *)
Definition copy_timestamps (source dest : PathBuf) : M unit :=
  let! _ := metadata source in ret tt.

Record BackupResult := mkBackupResult {
  source_path : PathBuf;
  backup_path : PathBuf;
  files_processed : nat;
  total_size : nat
}.

(** [resolve_collision] against the current filesystem. *)
Definition resolve_collision_now (base_path : PathBuf) : M PathBuf := fun w =>
  (resolve_collision (path_exists (w_fs w)) base_path, w).

(** [backup_file] *)
Definition backup_file (source : PathBuf) (config : Config) : M BackupResult :=
  validate_source source;;
  let! backup_path := lift (generate_backup_name now source config) in
  let! final_backup_path := resolve_collision_now backup_path in
  let! operation_guard := register_operation final_backup_path in
  with_guard operation_guard (
    let! file_size := calculate_size source in
    let! temp_path := lift (create_temp_backup_path process_id final_backup_path) in
    copy_file_with_interrupt_check source temp_path;;
    (if preserve_permissions config then
       copy_permissions source temp_path;; copy_timestamps source temp_path
     else ret tt);;
    rename temp_path final_backup_path;;
    ret (mkBackupResult source final_backup_path 1 file_size)).

End Process.

(* ------------------------------------------------------------------ *)
(** ** One file of a directory backup and the backup-name check *)

(** [copy_file_to_backup] (src/backup.rs): one regular file of a
    directory backup, through its temporary path; [result] is the
    [BackupResult] it updates. *)
Definition copy_file_to_backup (signal_at : nat -> bool) (process_id : nat)
  (source backup : PathBuf) (config : Config)
  (result : BackupResult) : M BackupResult :=
  let! temp_path := lift (create_temp_backup_path process_id backup) in
  copy_file_with_interrupt_check signal_at source temp_path;;
  (if preserve_permissions config then
     copy_permissions source temp_path;; copy_timestamps source temp_path
   else ret tt);;
  rename temp_path backup;;
  let! file_size := metadata source in
  ret (mkBackupResult (source_path result) (backup_path result)
         (S (files_processed result)) (total_size result + node_len file_size)).

(** [Path::exists] where the path may be a directory the filesystem map
    does not list: the root and [.] exist; the empty path does not, as
    [fs::metadata] fails on it. *)
Definition std_path_exists (fs : FileSystem) (p : PathBuf) : bool :=
  match p with
  | [] => false
  | ["/"] | ["."] => true
  | _ => path_exists fs p
  end.

(** [validate_backup_filename] (src/utils.rs); [fs::metadata(parent)]
    succeeds exactly when the parent exists. *)
Definition validate_backup_filename (process_id : nat) (path : PathBuf) : M unit := fun w =>
  if std_path_exists (w_fs w) path then (Err (BackupExists path), w) else
  match parent path with
  | Some parent_dir =>
      if std_path_exists (w_fs w) parent_dir then
        let temp_path := join parent_dir (".qbak_test_" ++ decimal process_id) in
        match file_create temp_path w with
        | (Ok _, w1) => (Ok tt, snd (remove_file_ignored temp_path w1))
        | (Err (Io PermissionDeniedIo), w1) => (Err (PermissionDenied parent_dir), w1)
        | (Err e, w1) => (Err e, w1)
        end
      else (Err (PermissionDenied parent_dir), w)
  | None => (Ok tt, w)
  end.


(* ------------------------------------------------------------------ *)
(** ** Directory walks (src/backup.rs) *)

(** A directory entry as [read_dir] yields it.  [entry.metadata()] does
    not follow symlinks; a symlink carries the node [fs::metadata] reaches
    through it ([None] when [resolved_target.exists()] is false). *)
#[local] Set Warnings "-register-all".
Inductive DirEntry :=
| EFile (name : string) (len : nat)
| EDir (name : string) (children : list DirEntry)
| ESymlink (name : string) (target : option DirEntry).

Definition entry_name (e : DirEntry) : string :=
  match e with EFile n _ | EDir n _ | ESymlink n _ => n end.

(** [is_hidden] (src/utils.rs) on the entry's file name. *)
Definition is_hidden (name : string) : bool :=
  match name with String "." _ => true | _ => false end.

(** The loop shared by [count_files_and_size_recursive] and
    [copy_directory_contents_with_progress]: for each entry of [read_dir],
    poll the interrupt flag ([interrupted] is its value during the walk),
    skip hidden entries unless [include_hidden], and add what [visit]
    reports for the entry to the running totals. *)
Fixpoint walk_entries (config : Config) (interrupted : bool)
  (visit : DirEntry -> Result (nat * nat)) (entries : list DirEntry)
  : Result (nat * nat) :=
  match entries with
  | [] => Ok (0, 0)
  | entry :: rest =>
      if interrupted then Err Interrupted
      else if negb (include_hidden config) && is_hidden (entry_name entry) then
        walk_entries config interrupted visit rest
      else
        let? here := visit entry in
        let? later := walk_entries config interrupted visit rest in
        Ok (fst here + fst later, snd here + snd later)
  end.

(** The body of [count_files_and_size_recursive] for one entry. *)
Fixpoint count_entry (config : Config) (interrupted : bool) (entry : DirEntry)
  : Result (nat * nat) :=
  match entry with
  | EFile _ len => Ok (1, len)
  | EDir _ children =>
      walk_entries config interrupted (count_entry config interrupted) children
  | ESymlink _ _ => Ok (0, 0)   (* Skip symlinks for size calculation *)
  end.

(** [count_files_and_size_recursive] over the entries of a directory. *)
Definition count_files_and_size_recursive (config : Config) (interrupted : bool)
  (entries : list DirEntry) : Result (nat * nat) :=
  walk_entries config interrupted (count_entry config interrupted) entries.

(** The body of [copy_directory_contents_with_progress] for one entry,
    with [handle_symlink_with_progress] (Unix build), reduced to what it
    adds to [files_processed] and [total_size] of the [BackupResult]. *)
Fixpoint copy_entry (config : Config) (interrupted : bool) (entry : DirEntry)
  : Result (nat * nat) :=
  match entry with
  | EFile _ len => Ok (1, len)   (* copy_file_to_backup *)
  | EDir _ children =>
      walk_entries config interrupted (copy_entry config interrupted) children
  | ESymlink _ target =>
      if follow_symlinks config then
        match target with
        | Some (EFile _ len) => Ok (1, len)
        | Some (EDir _ children) =>
            walk_entries config interrupted (copy_entry config interrupted) children
        | _ => Ok (0, 0)
        end
      else Ok (0, 0)   (* the link itself is recreated with [symlink] *)
  end.

(** [copy_directory_contents_with_progress] over the entries of a
    directory: the counts it adds to the [BackupResult]. *)
Definition copy_directory_contents_with_progress (config : Config) (interrupted : bool)
  (entries : list DirEntry) : Result (nat * nat) :=
  walk_entries config interrupted (copy_entry config interrupted) entries.


(** The loop of [count_files_recursive] over the entries of [read_dir]:
    no interrupt poll; hidden entries are skipped unless [include_hidden]. *)
Fixpoint count_files_loop (config : Config) (visit : DirEntry -> nat)
  (entries : list DirEntry) : nat :=
  match entries with
  | [] => 0
  | entry :: rest =>
      if negb (include_hidden config) && is_hidden (entry_name entry)
      then count_files_loop config visit rest
      else visit entry + count_files_loop config visit rest
  end.

(** What [count_files_recursive] adds for one entry. *)
Fixpoint count_files_entry (config : Config) (entry : DirEntry) : nat :=
  match entry with
  | EFile _ _ => 1
  | EDir _ children => count_files_loop config (count_files_entry config) children
  | ESymlink _ target =>
      if follow_symlinks config then
        match target with
        | Some (EFile _ _) => 1
        | Some (EDir _ children) =>
            count_files_loop config (count_files_entry config) children
        | _ => 0
        end
      else 0
  end.

(** [count_files_recursive dir config]: [1] when [dir.is_dir()] (which
    follows a symlink) is false. *)
Definition count_files_recursive (dir : DirEntry) (config : Config) : nat :=
  match dir with
  | EDir _ children | ESymlink _ (Some (EDir _ children)) =>
      count_files_loop config (count_files_entry config) children
  | _ => 1
  end.

(** The body of [copy_directory_contents] (used by [backup_directory])
    for one entry, with [handle_symlink] (Unix build), reduced to what it
    adds to [files_processed] and [total_size]. *)
Fixpoint copy_directory_contents_entry (config : Config) (interrupted : bool)
  (entry : DirEntry) : Result (nat * nat) :=
  match entry with
  | EFile _ len => Ok (1, len)   (* copy_file_to_backup *)
  | EDir _ children =>
      walk_entries config interrupted (copy_directory_contents_entry config interrupted) children
  | ESymlink _ target =>
      if follow_symlinks config then
        match target with
        | Some (EFile _ len) => Ok (1, len)
        | Some (EDir _ children) =>
            walk_entries config interrupted
              (copy_directory_contents_entry config interrupted) children
        | _ => Ok (0, 0)
        end
      else Ok (0, 0)
  end.

(** [copy_directory_contents] over the entries of a directory. *)
Definition copy_directory_contents (config : Config) (interrupted : bool)
  (entries : list DirEntry) : Result (nat * nat) :=
  walk_entries config interrupted (copy_directory_contents_entry config interrupted) entries.

(* ------------------------------------------------------------------ *)
(** ** Stale temporary files (src/backup.rs) *)

(** [fs::read_dir(dir)]: the paths of the entries directly inside [dir]. *)
Definition read_dir (fs : FileSystem) (dir : PathBuf) : list PathBuf :=
  List.filter (fun p => match p with
                        | [] => false
                        | _ => bool_decide (removelast p = dir)
                        end)
    (map fst (map_to_list fs)).

(** The loop of [cleanup_temp_files]; removal errors are ignored. *)
Fixpoint cleanup_temp_loop (entries : list PathBuf) : M unit :=
  match entries with
  | [] => ret tt
  | path :: rest =>
      (match file_name path with
       | Some filename =>
           if String.prefix ".qbak_temp_" filename then remove_file_ignored path
           else ret tt
       | None => ret tt
       end);;
      cleanup_temp_loop rest
  end.

(** [cleanup_temp_files]: [fs::read_dir(dir)?] fails with EACCES on a
    directory without read permission.  Once the directory is open the
    model lists every entry (no [entry?] error) and its removals succeed;
    what is proved about it below does not depend on either. *)
Definition cleanup_temp_files (dir : PathBuf) : M unit := fun w =>
  match w_fs w !! dir with
  | Some (DirNode perm) =>
      if owner_can_read perm then cleanup_temp_loop (read_dir (w_fs w) dir) w
      else (Err (Io PermissionDeniedIo), w)
  | _ => (Ok tt, w)   (* !dir.is_dir() *)
  end.

(** [temp_file_at q n]: [q] names a regular file [n] whose name starts
    with the temporary prefix. *)
Definition temp_file_at (q : PathBuf) (n : option Node) : bool :=
  match file_name q with
  | Some f => String.prefix ".qbak_temp_" f
  | None => false
  end
  && match n with Some (FileNode _ _) => true | _ => false end.

(* ------------------------------------------------------------------ *)
(** ** The per-target loop of [main] (src/main.rs) *)

(** [run_targets process_target targets success_count error_count]: the
    [for target_str in targets] loop followed by the exit code choice. *)
Fixpoint run_targets (process_target : string -> M unit) (targets : list string)
  (success_count error_count : nat) : M nat :=
  match targets with
  | [] => ret (if (0 <? error_count)%nat then 1 else 0)
  | target_str :: rest =>
      fun w =>
        match process_target target_str w with
        | (Ok _, w') => run_targets process_target rest (S success_count) error_count w'
        | (Err e, w') =>
            if is_recoverable e
            then run_targets process_target rest success_count (S error_count) w'
            else (Err e, w')
        end
  end.


(** [QbakError::exit_code] (src/error.rs) *)
Definition exit_code (e : QbakError) : nat :=
  match e with
  | Interrupted => 130
  | Validation _ => 2
  | ConfigError _ => 2
  | _ => 1
  end.

(** [run] from the [--dump-config] check on: [dump_config_flag] is the
    flag and [dump_config] what [dump_config(&config)] returns (its output
    is not modelled); [targets] is [None] when no target was given on the
    command line.  The configuration loaded before (a load error falls back
    to the defaults) reaches the loop only through [process_target]. *)
Definition run (dump_config_flag : bool) (dump_config : Result unit)
  (process_target : string -> M unit) (targets : option (list string)) : M nat :=
  if dump_config_flag then lift dump_config;; ret 0
  else
    match targets with
    | None => fail (Validation "No targets specified. Use --help for usage information.")
    | Some targets => run_targets process_target targets 0 0
    end.

(** [main]: the exit status of the process for what [run] returns. *)
Definition main (result : Result nat) : nat :=
  match result with
  | Ok exit_code => exit_code
  | Err error => exit_code error
  end.

(** The results of the [process_target] calls the target loop makes, in
    order: it stops after the first error that is not recoverable. *)
Fixpoint target_results (process_target : string -> M unit) (targets : list string)
  (w : World) : list (Result unit) :=
  match targets with
  | [] => []
  | target_str :: rest =>
      let '(r, w') := process_target target_str w in
      r :: match r with
           | Ok _ => target_results process_target rest w'
           | Err e => if is_recoverable e then target_results process_target rest w' else []
           end
  end.

(* ------------------------------------------------------------------ *)
(** ** Loading the configuration (src/config.rs) *)

(** ASCII text: every character below 128.  Beyond it the characters of
    a Rocq string are the bytes of a UTF-8 encoding, which the case
    mappings below do not follow. *)
Definition is_ascii_text (s : string) : bool :=
  forallb (fun c => (nat_of_ascii c <? 128)%nat) (list_ascii_of_string s).

(** [str::to_lowercase] on ASCII text: Unicode lower-casing maps ASCII
    letters as below and leaves other ASCII characters. *)
Definition ascii_lower (c : ascii) : ascii :=
  let n := nat_of_ascii c in
  if ((65 <=? n) && (n <=? 90))%nat then ascii_of_nat (n + 32) else c.

Definition to_lowercase (s : string) : string :=
  string_of_list_ascii (map ascii_lower (list_ascii_of_string s)).

(** [parse_bool] *)
Definition parse_bool (value : string) : option bool :=
  let v := to_lowercase value in
  if String.eqb v "true" || String.eqb v "yes" || String.eqb v "1" || String.eqb v "on"
  then Some true
  else if String.eqb v "false" || String.eqb v "no" || String.eqb v "0" || String.eqb v "off"
  then Some false
  else None.

(** [str::parse::<usize>] on a 64-bit target: an optional [+] and at
    least one decimal digit, below 2^64. *)
Definition parse_usize (s : string) : option nat :=
  let digits := match s with String "+" rest => rest | _ => s end in
  match NilZero.uint_of_string digits with
  | Some d => if (N.of_uint d <? 2 ^ 64)%N then Some (N.to_nat (N.of_uint d)) else None
  | None => None
  end.

(** The body of [load_config] once the file is parsed: [get key] is
    [conf.get("qbak", key)]. *)
Definition load_config_values (get : string -> option string) : Result Config :=
  let config := default_config in
  let timestamp_format' :=
    match get "timestamp_format" with Some value => value | None => timestamp_format config end in
  let backup_suffix' :=
    match get "backup_suffix" with Some value => value | None => backup_suffix config end in
  let bool_setting key (current : bool) :=
    match get key with
    | Some value => match parse_bool value with Some b => b | None => current end
    | None => current
    end in
  let preserve_permissions' := bool_setting "preserve_permissions" (preserve_permissions config) in
  let follow_symlinks' := bool_setting "follow_symlinks" (follow_symlinks config) in
  let include_hidden' := bool_setting "include_hidden" (include_hidden config) in
  let? max_filename_length' :=
    match get "max_filename_length" with
    | Some value =>
        match parse_usize value with
        | Some n => Ok n
        | None => Err (ConfigError ("Invalid max_filename_length: " ++ value))
        end
    | None => Ok (max_filename_length config)
    end in
  Ok (mkConfig timestamp_format' backup_suffix' preserve_permissions' follow_symlinks'
        include_hidden' max_filename_length').

(** The configuration file as [load_config] finds it. *)
Inductive ConfigFile :=
| Missing
| Unparsable (message : string)
| Parsed (get : string -> option string).

(** [load_config]; [config_path] is the result of [get_config_path]. *)
Definition load_config (config_path : Result PathBuf) (file : ConfigFile) : Result Config :=
  let? _ := config_path in
  match file with
  | Missing => Ok default_config
  | Unparsable message => Err (ConfigError ("Failed to parse config file: " ++ message))
  | Parsed get => load_config_values get
  end.

Example parse_bool_tests :
  parse_bool "TRUE" = Some true /\ parse_bool "Off" = Some false /\ parse_bool "maybe" = None.
Proof. repeat split. Qed.

Example parse_usize_tests :
  parse_usize "255" = Some 255%nat /\ parse_usize "+007" = Some 7%nat /\ parse_usize "" = None
  /\ parse_usize "+" = None /\ parse_usize "-1" = None /\ parse_usize " 1" = None
  /\ parse_usize "18446744073709551616" = None.
Proof. repeat split; vm_compute; reflexivity. Qed.

(* ------------------------------------------------------------------ *)
(** ** Progress display (src/progress.rs) *)

(** [ProgressConfig]; the duration threshold in seconds. *)
Record ProgressConfig := mkProgressConfig {
  enabled : bool;
  force_enabled : bool;
  supports_ansi : bool;
  terminal_width : nat;
  is_interactive : bool;
  min_files_threshold : nat;
  min_size_threshold : nat;
  min_duration_threshold : nat
}.

(** [ProgressConfig::should_show_progress] *)
Definition should_show_progress (config : ProgressConfig) (file_count total_size : nat)
  (force_progress : bool) : bool :=
  if negb (enabled config) then false
  else if force_progress then true
  else if force_enabled config then true
  else (min_files_threshold config <=? file_count)%nat
       || (min_size_threshold config <=? total_size)%nat.

(** [str::is_char_boundary] on the UTF-8 bytes of a string: [i] is 0 or
    the length, or the byte at [i] does not continue a multi-byte
    sequence (it is not of the form 0b10xxxxxx). *)
Definition is_char_boundary (s : list byte) (i : nat) : bool :=
  Nat.eqb i 0 ||
  match nth_error s i with
  | None => Nat.eqb i (length s)
  | Some b => negb (Nat.eqb (Byte.to_nat b / 64) 2)
  end.

(** [BackupProgress::format_progress_message] on UTF-8 bytes: [name] is
    [current_file.file_name().and_then(|n| n.to_str())].  [None] is the
    panic of the slice [&filename[..max_len.saturating_sub(3)]] when it
    does not end on a character boundary; the widths are byte lengths, as
    [str::len]. *)
Definition format_progress_message (config : ProgressConfig) (name : option (list byte))
  : option (list byte) :=
  let filename := match name with Some n => n | None => list_byte_of_string "..." end in
  if (120 <=? terminal_width config)%nat then
    Some (list_byte_of_string "Processing: " ++ filename)%list
  else
    let max_len := Nat.min (terminal_width config / 3) 30 in
    if (max_len <? length filename)%nat then
      if is_char_boundary filename (max_len - 3) then
        let truncated := firstn (max_len - 3) filename in
        Some (truncated ++ list_byte_of_string "...")%list
      else None
    else Some filename.

(* ------------------------------------------------------------------ *)
(** ** A sample state: [/tmp] holding [a.txt] with three bytes *)

Definition demo_bytes : list byte := [x61; x62; x63].
Definition demo_source : PathBuf := ["/"; "tmp"; "a.txt"].
Definition demo_world : World :=
  mkWorld (<[["/"; "tmp"] := DirNode 493]> (<[demo_source := FileNode 420 demo_bytes]> ∅))
          ∅ false 0.
Definition demo_now : DateTime := mkDateTime 2025 1 1 12 0 0.
Definition demo_backup : PathBuf := ["/"; "tmp"; "a-20250101T120000-qbak.txt"].
Definition demo_temp : PathBuf := ["/"; "tmp"; ".qbak_temp_7_a-20250101T120000-qbak.txt"].

(** A directory backup of [/tmp/d] in progress whose copied subdirectory
    [sub] already has the read-only mode 0o555 of its source. *)
Definition demo_dir_backup : PathBuf := ["/"; "tmp"; "d-20250101T120000-qbak"].
Definition readonly_subdir_world : World :=
  mkWorld (<[(demo_dir_backup ++ ["sub"; "f"])%list := FileNode 420 demo_bytes]>
           (<[(demo_dir_backup ++ ["sub"])%list := DirNode 365]>
            (<[demo_dir_backup := DirNode 493]>
             (<[["/"; "tmp"] := DirNode 493]> ∅))))
          ∅ false 0.

(* ================================================================== *)
(** * Properties *)

(* ------------------------------------------------------------------ *)
(** ** String lemmas *)

(** [no_char c s]: [c] does not occur in [s]. *)
Definition no_char (c : ascii) (s : string) : Prop :=
  forall k, String.get k s <> Some c.

Lemma string_length_app (a b : string) :
  String.length (a ++ b) = (String.length a + String.length b)%nat.
Proof. induction a as [|x a IH]; simpl; [reflexivity | now rewrite IH]. Qed.

Lemma substring_prefix_app (a b : string) :
  substring 0 (String.length a) (a ++ b) = a.
Proof. induction a as [|x a IH]; simpl; [now destruct b | now rewrite IH]. Qed.

Lemma substring_skip_app (a b : string) (n m : nat) :
  substring (String.length a + n) m (a ++ b) = substring n m b.
Proof. induction a as [|x a IH]; simpl; [reflexivity | exact IH]. Qed.

Lemma substring_whole (b : string) : substring 0 (String.length b) b = b.
Proof. induction b as [|x b IH]; simpl; [reflexivity | now rewrite IH]. Qed.

Lemma rfind_some (c : ascii) (s : string) (i : nat) :
  rfind c s = Some i ->
  exists a b, s = a ++ String c b /\ String.length a = i /\ rfind c b = None.
Proof.
  revert i; induction s as [|x s IH]; intros i H; simpl in H; [discriminate|].
  destruct (rfind c s) as [j|] eqn:Hs.
  - injection H as <-. destruct (IH j eq_refl) as (a & b & -> & Ha & Hb).
    exists (String x a), b. simpl. auto.
  - destruct (Ascii.eqb_spec x c) as [->|]; [|discriminate].
    injection H as <-. exists "", s. auto.
Qed.

Lemma rfind_none (c : ascii) (s : string) : rfind c s = None -> no_char c s.
Proof.
  induction s as [|x s IH]; intros H k; simpl in H.
  - destruct k; discriminate.
  - destruct (rfind c s) as [j|]; [discriminate|].
    destruct (Ascii.eqb_spec x c) as [|Hx]; [discriminate|].
    destruct k as [|k]; simpl.
    + intros [= ->]. contradiction.
    + now apply IH.
Qed.

Lemma no_char_cons (c x : ascii) (s : string) :
  x <> c -> no_char c s -> no_char c (String x s).
Proof. intros Hx Hs [|k]; simpl; [congruence | apply Hs]. Qed.

(** The four shapes of [split_filename]'s result. *)
Lemma split_filename_cases (s : string) :
  (exists stem ext, s = stem ++ "." ++ ext /\ stem <> "" /\ ext <> "" /\
     no_char "." ext /\ split_filename s = (stem, ext))
  \/ (no_char "." s /\ split_filename s = (s, ""))
  \/ (exists rest, s = "." ++ rest /\ rest <> "" /\ no_char "." rest /\
        split_filename s = (s, ""))
  \/ (exists stem, s = stem ++ "." /\ split_filename s = (stem, "")).
Proof.
  unfold split_filename. destruct (rfind "." s) as [i|] eqn:Hr.
  - destruct (rfind_some _ _ _ Hr) as (a & b & Hs & Ha & Hb).
    pose proof (rfind_none _ _ Hb) as Hnb.
    assert (Hlen : String.length s = (i + 1 + String.length b)%nat).
    { subst s. rewrite string_length_app. simpl. lia. }
    rewrite Hlen.
    assert (Hto : slice_to s i = a).
    { unfold slice_to. subst s i. apply substring_prefix_app. }
    assert (Hfrom : slice_from s (i + 1) = b).
    { unfold slice_from. rewrite Hlen.
      replace (i + 1 + String.length b - (i + 1))%nat with (String.length b) by lia.
      subst s i. rewrite substring_skip_app. simpl. apply substring_whole. }
    destruct ((0 <? i) && (i <? i + 1 + String.length b - 1))%nat eqn:Hc.
    + left. apply andb_prop in Hc as [H1 H2].
      apply Nat.ltb_lt in H1, H2.
      exists a, b. rewrite Hto, Hfrom. repeat split; auto.
      * intros ->. simpl in Ha. lia.
      * intros ->. simpl in H2. lia.
    + destruct (i =? i + 1 + String.length b - 1)%nat eqn:He.
      * apply Nat.eqb_eq in He. right; right; right.
        destruct b; [|simpl in He; lia].
        exists a. rewrite Hto. auto.
      * apply Nat.eqb_neq in He. right; right; left.
        destruct b as [|y b]; [simpl in He; lia|].
        destruct a as [|z a].
        -- exists (String y b). simpl in Hs. repeat split; auto; discriminate.
        -- exfalso. apply andb_false_iff in Hc as [Hc|Hc];
             apply Nat.ltb_ge in Hc; simpl in *; lia.
  - right; left. split; [apply rfind_none, Hr | reflexivity].
Qed.

Lemma file_name_parent (p : PathBuf) (name : string) :
  file_name p = Some name -> parent_or_dot p = removelast p.
Proof.
  unfold file_name, parent_or_dot, parent. intros H.
  destruct p as [|c [|d p]]; simpl in *; try discriminate; [|reflexivity].
  destruct (String.eqb_spec c "/") as [->|]; simpl in H; [discriminate|reflexivity].
Qed.

Lemma format_timestamp_fallback (timestamp : DateTime) (format : string) :
  format_timestamp timestamp format = strftime compact_format timestamp.
Proof. unfold format_timestamp. now destruct (String.eqb format _). Qed.

(** C10: [split_filename] loses nothing.  With a non-empty extension,
    stem, dot and extension give back the file name and the extension has
    no dot; with an empty extension the stem is the file name or the file
    name without one trailing dot. *)
Theorem split_filename_lossless (filename : string) :
  let '(stem, extension) := split_filename filename in
  if String.eqb extension "" then filename = stem \/ filename = stem ++ "."
  else stem ++ "." ++ extension = filename /\ no_char "." extension.
Proof.
  destruct (split_filename_cases filename)
    as [(stem & ext & Hs & _ & Hne & Hnd & ->)
       |[(_ & ->)|[(rest & _ & _ & _ & ->)|(stem & Hs & ->)]]]; simpl.
  - destruct (String.eqb_spec ext "") as [->|]; [contradiction|].
    split; [symmetry; exact Hs | exact Hnd].
  - left; reflexivity.
  - left; reflexivity.
  - right; exact Hs.
Qed.

(** C5: for a source with a final segment, [generate_backup_name] splits
    the segment at its last interior dot (a leading-only or trailing dot
    gives no extension), renders the timestamp as [%Y%m%dT%H%M%S] whatever
    the configured format, builds [<stem>-<timestamp>-<suffix>[.<ext>]],
    validates it and places it in the source's parent directory (for a
    one-component relative source, the empty relative path, i.e. the
    current directory). *)
Theorem generate_backup_name_shape (now : DateTime) (source : PathBuf)
  (config : Config) (source_name : string) :
  file_name source = Some source_name ->
  ((exists stem ext, source_name = stem ++ "." ++ ext /\ stem <> "" /\ ext <> "" /\
      no_char "." ext /\ split_filename source_name = (stem, ext))
   \/ (no_char "." source_name /\ split_filename source_name = (source_name, ""))
   \/ (exists rest, source_name = "." ++ rest /\ rest <> "" /\ no_char "." rest /\
         split_filename source_name = (source_name, ""))
   \/ (exists stem, source_name = stem ++ "." /\ split_filename source_name = (stem, "")))
  /\ (forall format, format_timestamp now format = strftime compact_format now)
  /\ generate_backup_name now source config =
     (let '(stem, extension) := split_filename source_name in
      let backup_name :=
        backup_name_of stem extension (strftime compact_format now) (backup_suffix config) in
      let? _ := validate_filename_length backup_name (max_filename_length config) in
      let? _ := validate_filesystem_chars backup_name in
      Ok (removelast source ++ [backup_name])%list).
Proof.
  intros Hname. split; [apply split_filename_cases|].
  split; [intros; apply format_timestamp_fallback|].
  unfold generate_backup_name. rewrite Hname, format_timestamp_fallback.
  destruct (split_filename source_name) as [stem ext].
  unfold join. now rewrite (file_name_parent _ _ Hname).
Qed.

(** C8: the temporary path of a destination with a file name is
    [.qbak_temp_<process-id>_<file name>] in the destination's directory
    (the empty relative path, i.e. the current directory, for a
    one-component relative destination). *)
Theorem create_temp_backup_path_name (process_id : nat) (backup_path : PathBuf)
  (filename : string) :
  file_name backup_path = Some filename ->
  create_temp_backup_path process_id backup_path =
  Ok (removelast backup_path ++
      [(".qbak_temp_" ++ decimal process_id ++ "_" ++ filename)%string])%list.
Proof.
  intros H. unfold create_temp_backup_path. rewrite H.
  unfold join. now rewrite (file_name_parent _ _ H).
Qed.

(** C9: exactly source-not-found, permission-denied and validation errors
    are recoverable; after a recoverable error the per-target loop goes on
    with the next target, after any other error (Interrupted included) it
    stops and returns that error. *)
Theorem target_loop_recoverability (process_target : string -> M unit)
  (target_str : string) (rest : list string) (success_count error_count : nat)
  (w w' : World) (e : QbakError) :
  process_target target_str w = (Err e, w') ->
  (is_recoverable e = true <->
     (exists p, e = SourceNotFound p) \/ (exists p, e = PermissionDenied p) \/
     (exists m, e = Validation m))
  /\ run_targets process_target (target_str :: rest) success_count error_count w =
     (if is_recoverable e
      then run_targets process_target rest success_count (S error_count) w'
      else (Err e, w'))
  /\ is_recoverable Interrupted = false.
Proof.
  intros H. split; [|split; [simpl; now rewrite H | reflexivity]].
  destruct e; simpl; split; intros Hr; try discriminate; try reflexivity;
    try (destruct Hr as [[? Hp]|[[? Hp]|[? Hp]]]; discriminate); eauto.
Qed.

Lemma probe_counters_first (path_exists : PathBuf -> bool) (parent : PathBuf)
  (stem extension : string) (fuel counter n : nat) :
  (counter <= n < counter + fuel)%nat ->
  path_exists (join parent (new_name stem extension n)) = false ->
  (forall m, (counter <= m < n)%nat ->
     path_exists (join parent (new_name stem extension m)) = true) ->
  probe_counters path_exists parent stem extension counter fuel
  = Ok (join parent (new_name stem extension n)).
Proof.
  revert counter. induction fuel as [|fuel IH]; intros counter Hn Hfree Hbusy; [lia|].
  simpl. destruct (Nat.eq_dec counter n) as [<-|Hne].
  - now rewrite Hfree.
  - rewrite (Hbusy counter) by lia. simpl.
    apply IH; [lia | exact Hfree | intros m Hm; apply Hbusy; lia].
Qed.

Lemma probe_counters_exhausted (path_exists : PathBuf -> bool) (parent : PathBuf)
  (stem extension : string) (fuel counter : nat) :
  (forall m, (counter <= m < counter + fuel)%nat ->
     path_exists (join parent (new_name stem extension m)) = true) ->
  probe_counters path_exists parent stem extension counter fuel
  = Err (Validation "Too many backup collisions (>9999)").
Proof.
  revert counter. induction fuel as [|fuel IH]; intros counter Hbusy; [reflexivity|].
  simpl. rewrite (Hbusy counter) by lia. simpl.
  apply IH. intros m Hm. apply Hbusy. lia.
Qed.



Lemma is_invalid_char_spec (c : ascii) : is_invalid_char c = true <-> In c INVALID_CHARS.
Proof.
  unfold is_invalid_char. rewrite existsb_exists. split.
  - intros (x & Hx & Heq). apply Ascii.eqb_eq in Heq. now subst.
  - intros Hc. exists c. split; [exact Hc | apply Ascii.eqb_refl].
Qed.

Lemma filter_nil_iff {A} (f : A -> bool) (l : list A) :
  List.filter f l = [] <-> (forall x, In x l -> f x = false).
Proof.
  induction l as [|a l IH]; simpl; [split; [intros _ x []|reflexivity]|].
  destruct (f a) eqn:Ha; split.
  - discriminate.
  - intros H. rewrite (H a (or_introl eq_refl)) in Ha. discriminate.
  - intros H x [->|Hx]; [exact Ha | now apply IH].
  - intros H. apply IH. intros x Hx. apply H. now right.
Qed.

Lemma existsb_In_false {A} (f : A -> bool) (l : list A) :
  existsb f l = false <-> (forall x, In x l -> f x = false).
Proof.
  split.
  - intros H x Hx. destruct (f x) eqn:Hf; [|reflexivity].
    assert (existsb f l = true) by (apply existsb_exists; eauto). congruence.
  - intros H. destruct (existsb f l) eqn:He; [|reflexivity].
    apply existsb_exists in He as (x & Hx & Hf). rewrite H in Hf; auto.
Qed.

Lemma existsb_string_eqb (s : string) (l : list string) :
  existsb (String.eqb s) l = true <-> In s l.
Proof.
  rewrite existsb_exists. split.
  - intros (x & Hx & Heq). apply String.eqb_eq in Heq. now subst.
  - intros Hs. exists s. split; [exact Hs | apply String.eqb_refl].
Qed.



(* ------------------------------------------------------------------ *)
(** ** The pre-scan and the copying walk *)

(** [config] with [follow_symlinks] off. *)
Definition without_follow (config : Config) : Config :=
  mkConfig (timestamp_format config) (backup_suffix config)
    (preserve_permissions config) false (include_hidden config)
    (max_filename_length config).

Lemma walk_entries_ext (c c' : Config) (interrupted : bool)
  (visit visit' : DirEntry -> Result (nat * nat)) (entries : list DirEntry) :
  include_hidden c = include_hidden c' ->
  Forall (fun e => visit e = visit' e) entries ->
  walk_entries c interrupted visit entries = walk_entries c' interrupted visit' entries.
Proof.
  intros Hh Hv. induction Hv as [|e rest He _ IH]; simpl; [reflexivity|].
  rewrite Hh, He, IH. reflexivity.
Qed.

Lemma count_entry_as_copy (config : Config) (interrupted : bool) :
  forall entry, count_entry config interrupted entry
                = copy_entry (without_follow config) interrupted entry.
Proof.
  fix IH 1. intros [name len | name children | name target]; simpl.
  - reflexivity.
  - apply walk_entries_ext; [reflexivity|].
    induction children as [|e rest IHc]; constructor; [apply IH | exact IHc].
  - reflexivity.
Qed.

(** The pre-scan is the copying walk with symlinks never followed. *)
Lemma prescan_is_copy_without_follow (config : Config) (interrupted : bool)
  (entries : list DirEntry) :
  count_files_and_size_recursive config interrupted entries
  = copy_directory_contents_with_progress (without_follow config) interrupted entries.
Proof.
  unfold count_files_and_size_recursive, copy_directory_contents_with_progress.
  apply walk_entries_ext; [reflexivity|].
  apply Forall_forall. intros e _. apply count_entry_as_copy.
Qed.

(** C4 fails on the code: with the default configuration
    ([follow_symlinks = true]) a directory holding one symlink to a
    regular file is pre-scanned as 0 files while the backup copies and
    counts 1. *)
Theorem prescan_misses_followed_symlink :
  let entries := [ESymlink "link.txt" (Some (EFile "target.txt" 5))] in
  follow_symlinks default_config = true
  /\ count_files_and_size_recursive default_config false entries = Ok (0, 0)
  /\ copy_directory_contents_with_progress default_config false entries = Ok (1, 5).
Proof. repeat split. Qed.

(* ------------------------------------------------------------------ *)
(** ** The operation registry *)

Lemma is_prefix_refl (p : PathBuf) : is_prefix p p = true.
Proof. induction p as [|a p IH]; simpl; [reflexivity|]. now rewrite String.eqb_refl, IH. Qed.

Lemma cleanup_paths_ok (l : list PathBuf) (w : World) :
  fst (cleanup_paths l w) = Ok tt.
Proof.
  revert w; induction l as [|p l IH]; intros w; [reflexivity|].
  simpl. unfold mbind. destruct (path_exists (w_fs w) p); apply IH.
Qed.

(** One step of [cleanup_paths]: [p] is left as it was when it is
    absent or a directory whose removal is refused; otherwise it and, for
    a directory, everything below it are removed. *)
Lemma cleanup_step_spec (p : PathBuf) (w : World) (r : Result unit) (w1 : World) :
  (if path_exists (w_fs w) p then
     let cleanup_result :=
       if is_dir_node (w_fs w !! p) then remove_dir_all p w else remove_file p w in
     (Ok tt, snd cleanup_result)
   else (Ok tt, w)) = (r, w1) ->
  r = Ok tt /\ w_active w1 = w_active w
  /\ ((w_fs w1 = w_fs w
       /\ (w_fs w !! p = None
           \/ exists perm, w_fs w !! p = Some (DirNode perm)
                           /\ remove_dir_all_denied (w_fs w) p = true))
      \/ (exists perm b, w_fs w !! p = Some (FileNode perm b) /\ w_fs w1 = delete p (w_fs w))
      \/ (exists perm, w_fs w !! p = Some (DirNode perm)
                       /\ remove_dir_all_denied (w_fs w) p = false
                       /\ w_fs w1 = filter (fun kv => is_prefix p kv.1 = false) (w_fs w))).
Proof.
  unfold path_exists. destruct (w_fs w !! p) as [[perm b|perm]|] eqn:Hp; simpl.
  - unfold remove_file. rewrite Hp. intros H; injection H as <- <-.
    split; [reflexivity|]. split; [reflexivity|]. right; left. eauto.
  - unfold remove_dir_all. rewrite Hp.
    destruct (remove_dir_all_denied (w_fs w) p) eqn:Hd; intros H; injection H as <- <-;
      (split; [reflexivity|]); (split; [reflexivity|]).
    + left. split; [reflexivity|]. right. eauto.
    + right; right. eauto.
  - intros H; injection H as <- <-. split; [reflexivity|]. split; [reflexivity|].
    left. auto.
Qed.

(** [cleanup_paths] only removes paths. *)
Lemma cleanup_paths_sub (l : list PathBuf) (w : World) (q : PathBuf) :
  forall n, w_fs (snd (cleanup_paths l w)) !! q = Some n -> w_fs w !! q = Some n.
Proof.
  revert w; induction l as [|p l IH]; intros w n; simpl; [auto|].
  unfold mbind.
  destruct (if path_exists (w_fs w) p then _ else _) as [r w1] eqn:E.
  destruct (cleanup_step_spec p w r w1 E) as (-> & _ & Hc).
  intros H. apply IH in H.
  destruct Hc as [[Heq _]|[(perm & b & _ & Heq)|(perm & _ & _ & Heq)]];
    rewrite Heq in H; [exact H| |].
  - apply lookup_delete_Some in H as [_ H]. exact H.
  - apply map_lookup_filter_Some in H as [H _]. exact H.
Qed.

(** A path that [cleanup_paths] visited and that is still there is a
    directory. *)
Lemma cleanup_paths_left (l : list PathBuf) (w : World) (q : PathBuf) :
  In q l -> forall n, w_fs (snd (cleanup_paths l w)) !! q = Some n ->
  exists perm, n = DirNode perm.
Proof.
  revert w; induction l as [|p l IH]; intros w Hin n; simpl; [destruct Hin|].
  unfold mbind.
  destruct (if path_exists (w_fs w) p then _ else _) as [r w1] eqn:E.
  destruct (cleanup_step_spec p w r w1 E) as (-> & _ & Hc).
  destruct Hin as [->|Hin]; [|apply IH, Hin].
  intros H. apply cleanup_paths_sub in H.
  destruct Hc as [[Heq [Hq|(perm & Hq & _)]]|[(perm & b & _ & Heq)|(perm & _ & _ & Heq)]];
    rewrite Heq in H.
  - congruence.
  - rewrite Hq in H. injection H as <-. eauto.
  - rewrite lookup_delete_eq in H. discriminate.
  - apply map_lookup_filter_Some in H as [_ H]. simpl in H.
    rewrite is_prefix_refl in H. discriminate.
Qed.

(** A visited path that was not a directory is gone afterwards. *)
Lemma cleanup_paths_file_gone (l : list PathBuf) (w : World) (q : PathBuf) :
  In q l -> is_dir_node (w_fs w !! q) = false ->
  w_fs (snd (cleanup_paths l w)) !! q = None.
Proof.
  intros Hin Hd. destruct (w_fs (snd (cleanup_paths l w)) !! q) as [n|] eqn:Hn; [|reflexivity].
  destruct (cleanup_paths_left l w q Hin n Hn) as [perm ->].
  apply cleanup_paths_sub in Hn. rewrite Hn in Hd. discriminate.
Qed.

(** Cleaning up a single path: it is gone exactly when it is not a
    directory or its removal is allowed. *)
Lemma cleanup_paths_single (p : PathBuf) (w : World) :
  w_fs (snd (cleanup_paths [p] w)) !! p = None
  <-> is_dir_node (w_fs w !! p) = false \/ remove_dir_all_denied (w_fs w) p = false.
Proof.
  simpl. unfold mbind.
  destruct (if path_exists (w_fs w) p then _ else _) as [r w1] eqn:E.
  destruct (cleanup_step_spec p w r w1 E) as (-> & _ & Hc). simpl.
  destruct Hc as [[-> [Hq|(perm & Hq & Hd)]]|[(perm & b & Hq & ->)|(perm & Hq & Hd & ->)]];
    rewrite Hq; simpl.
  - split; auto.
  - rewrite Hd. split; [discriminate|]. intros [H|H]; discriminate.
  - rewrite lookup_delete_eq. split; auto.
  - split; auto. intros _. apply map_lookup_filter_None. right. intros x _. simpl.
    rewrite is_prefix_refl. discriminate.
Qed.

Ltac run_registry :=
  cbv [mbind register_operation modify ret guard_drop is_interrupted
       remove_operation set_active complete set_interrupted]; simpl.



(* ------------------------------------------------------------------ *)
(** ** The chunked copy *)

(** The bytes a read stream delivers and the number of chunks in it. *)
Fixpoint stream_bytes (s : ReadStream) : list byte :=
  match s with
  | EOF | ReadFail _ => []
  | Chunk b rest => (b ++ stream_bytes rest)%list
  end.

Fixpoint stream_chunks (s : ReadStream) : nat :=
  match s with
  | EOF | ReadFail _ => 0
  | Chunk _ rest => S (stream_chunks rest)
  end.

(** No read of the stream fails with [Interrupted] itself. *)
Fixpoint reads_never_interrupted (s : ReadStream) : Prop :=
  match s with
  | EOF => True
  | Chunk _ rest => reads_never_interrupted rest
  | ReadFail e => e <> Interrupted
  end.

Lemma mbind_inv {A B} (m : M A) (k : A -> M B) (w w' : World) (b : B) :
  mbind m k w = (Ok b, w') -> exists a w1, m w = (Ok a, w1) /\ k a w1 = (Ok b, w').
Proof. unfold mbind. destruct (m w) as [[a|e] w1]; intros H; [eauto|discriminate]. Qed.

Lemma read_chunks_bytes (fuel : nat) (bytes : list byte) :
  stream_bytes (read_chunks fuel bytes) = bytes.
Proof.
  revert bytes. induction fuel as [|fuel IH]; intros [|b bytes]; cbn -[BUF_SIZE];
    try reflexivity.
  - now rewrite app_nil_r.
  - rewrite IH. apply firstn_skipn.
Qed.

Lemma read_chunks_safe (fuel : nat) (bytes : list byte) :
  reads_never_interrupted (read_chunks fuel bytes).
Proof.
  revert bytes. induction fuel as [|fuel IH]; intros [|b bytes]; cbn -[BUF_SIZE]; auto.
Qed.

Lemma read_stream_safe (n : Node) : reads_never_interrupted (read_stream n).
Proof. destruct n; simpl; [apply read_chunks_safe | discriminate]. Qed.

(** An interrupted copy loop removes the file it was writing, whose other
    writes only touched that file. *)
Lemma copy_loop_interrupted_fs (signal_at : nat -> bool) (dest : PathBuf)
  (s : ReadStream) (w w' : World) (r : Result unit) (perm : nat) (acc : list byte) :
  reads_never_interrupted s ->
  w_fs w !! dest = Some (FileNode perm acc) ->
  copy_loop signal_at dest s w = (r, w') -> r = Err Interrupted ->
  w_fs w' = delete dest (w_fs w).
Proof.
  revert w acc. induction s as [|b rest IH|e]; intros w acc Hsafe Hdest Hrun Hr;
    simpl in Hrun; cbv [mbind is_interrupted] in Hrun; simpl in Hrun;
    destruct (w_flag w || signal_at (w_clock w)) eqn:Ef;
    cbv [remove_file_ignored remove_file fail ret] in Hrun; simpl in Hrun;
    try (rewrite Hdest in Hrun; simpl in Hrun; inversion Hrun; reflexivity).
  - inversion Hrun; subst; discriminate.
  - cbv [write_all] in Hrun. simpl in Hrun. rewrite Hdest in Hrun.
    apply (IH _ (acc ++ b)%list) in Hrun; [| exact Hsafe | simpl; apply lookup_insert_eq | exact Hr].
    rewrite Hrun. simpl. apply delete_insert_eq.
  - inversion Hrun; subst. simpl in Hsafe. congruence.
Qed.

(** A copy loop whose flag read sees the interrupt (before or at one of
    its polls) fails with [Interrupted]. *)
Lemma copy_loop_observed (signal_at : nat -> bool) (dest : PathBuf)
  (s : ReadStream) (w : World) :
  (w_flag w = true \/
   exists k, (k <= stream_chunks s)%nat /\ signal_at (w_clock w + k) = true) ->
  fst (copy_loop signal_at dest s w) = Err Interrupted.
Proof.
  revert w. induction s as [|b rest IH|e]; intros w Hsig;
    simpl; cbv [mbind is_interrupted]; simpl;
    destruct (w_flag w || signal_at (w_clock w)) eqn:Ef;
    cbv [remove_file_ignored fail ret];
    try (destruct (remove_file dest _); reflexivity);
    apply orb_false_iff in Ef as [Ef1 Ef2];
    (destruct Hsig as [Hf|(k & Hk & Hs)]; [congruence|]).
  - simpl in Hk. assert (k = 0)%nat as -> by lia. rewrite Nat.add_0_r in Hs. congruence.
  - simpl in Hk. destruct k as [|k]; [rewrite Nat.add_0_r in Hs; congruence|].
    cbv [write_all]. simpl.
    destruct (w_fs w !! dest) as [[p0 b0|p0]|]; apply IH; right; exists k;
      (split; [lia | simpl; rewrite <- Hs; f_equal; lia]).
  - simpl in Hk. assert (k = 0)%nat as -> by lia. rewrite Nat.add_0_r in Hs. congruence.
Qed.

(** An interrupted [copy_file_with_interrupt_check] leaves the filesystem
    as it was, without any file at [dest]. *)
Lemma copy_file_interrupted_fs (signal_at : nat -> bool) (source dest : PathBuf)
  (w : World) :
  fst (copy_file_with_interrupt_check signal_at source dest w) = Err Interrupted ->
  w_fs (snd (copy_file_with_interrupt_check signal_at source dest w))
  = delete dest (w_fs w).
Proof.
  unfold copy_file_with_interrupt_check. cbv [mbind metadata get_world ret].
  destruct (w_fs w !! source) as [opened|]; [|discriminate].
  unfold file_create. destruct (parent_is_dir (w_fs w) dest); simpl; [|discriminate].
  destruct (w_fs w !! dest) as [[perm0 b0|perm0]|] eqn:Ed; simpl; try discriminate;
  match goal with
  | |- context [copy_loop signal_at dest ?s ?w1] =>
      destruct (copy_loop signal_at dest s w1) as [r w'] eqn:Hrun
  end;
  destruct r as [[]|e]; simpl; try discriminate; intros He; inversion He; subst e;
  (eapply copy_loop_interrupted_fs in Hrun;
   [ | apply read_stream_safe | simpl; apply lookup_insert_eq | reflexivity ]);
  rewrite Hrun; simpl; apply delete_insert_eq.
Qed.

Lemma file_name_last (p : PathBuf) (name : string) :
  file_name p = Some name -> p = (removelast p ++ [name])%list.
Proof.
  unfold file_name. destruct (last p) as [c|] eqn:Hl; [|discriminate].
  destruct (_ || _); intros H; [discriminate|]. injection H as <-.
  apply last_Some in Hl as [l ->]. now rewrite removelast_last.
Qed.

Lemma create_temp_backup_path_shape (process_id : nat) (final temp : PathBuf) :
  create_temp_backup_path process_id final = Ok temp ->
  exists fname, file_name final = Some fname /\
    temp = (removelast final ++
            [(".qbak_temp_" ++ decimal process_id ++ "_" ++ fname)%string])%list.
Proof.
  unfold create_temp_backup_path. destruct (file_name final) as [fname|] eqn:Hf;
    intros H; [|discriminate].
  injection H as <-. exists fname. split; [reflexivity|].
  unfold join. now rewrite (file_name_parent _ _ Hf).
Qed.

Lemma temp_name_longer (process_id : nat) (fname : string) :
  (String.length fname
   < String.length (".qbak_temp_" ++ decimal process_id ++ "_" ++ fname))%nat.
Proof. rewrite !string_length_app. simpl. lia. Qed.

Lemma create_temp_backup_path_ne (process_id : nat) (final temp : PathBuf) :
  create_temp_backup_path process_id final = Ok temp -> temp <> final.
Proof.
  intros H. apply create_temp_backup_path_shape in H as (fname & Hf & ->).
  rewrite (file_name_last _ _ Hf) at 2. intros Heq.
  apply app_inj_tail in Heq as [_ Heq].
  pose proof (temp_name_longer process_id fname) as Hlt. rewrite Heq in Hlt. lia.
Qed.


(** A copy loop that succeeds appends the bytes of the stream to the file
    it writes and changes nothing else. *)
Lemma copy_loop_success_fs (signal_at : nat -> bool) (dest : PathBuf)
  (s : ReadStream) (w w' : World) (perm : nat) (acc : list byte) :
  w_fs w !! dest = Some (FileNode perm acc) ->
  copy_loop signal_at dest s w = (Ok tt, w') ->
  w_fs w' = <[dest := FileNode perm (acc ++ stream_bytes s)%list]> (w_fs w).
Proof.
  revert w acc. induction s as [|b rest IH|e]; intros w acc Hdest Hrun;
    simpl in Hrun; cbv [mbind is_interrupted] in Hrun; simpl in Hrun;
    destruct (w_flag w || signal_at (w_clock w)) eqn:Ef;
    cbv [remove_file_ignored fail ret] in Hrun; simpl in Hrun;
    try (destruct (remove_file dest _); discriminate); try discriminate.
  - inversion Hrun; subst. simpl. rewrite app_nil_r. symmetry. now apply insert_id.
  - cbv [write_all] in Hrun. simpl in Hrun. rewrite Hdest in Hrun.
    apply (IH _ (acc ++ b)%list) in Hrun; [| simpl; apply lookup_insert_eq].
    rewrite Hrun. simpl. rewrite insert_insert_eq, app_assoc. reflexivity.
Qed.

(** A successful [copy_file_with_interrupt_check] from a regular file
    leaves a file with the source's bytes at [dest] and nothing else
    changed. *)
Lemma copy_file_success_fs (signal_at : nat -> bool) (source dest : PathBuf)
  (w w' : World) (perm : nat) (bytes : list byte) :
  w_fs w !! source = Some (FileNode perm bytes) -> source <> dest ->
  copy_file_with_interrupt_check signal_at source dest w = (Ok tt, w') ->
  exists perm', w_fs w' = <[dest := FileNode perm' bytes]> (w_fs w).
Proof.
  intros Hsrc Hne. unfold copy_file_with_interrupt_check.
  cbv [mbind metadata get_world ret]. rewrite Hsrc.
  unfold file_create. destruct (parent_is_dir (w_fs w) dest); simpl; [|discriminate].
  destruct (w_fs w !! dest) as [[perm0 b0|perm0]|] eqn:Ed; simpl; try discriminate;
    rewrite lookup_insert_ne by congruence; rewrite Hsrc;
    match goal with
    | |- context [copy_loop signal_at dest ?s ?w1] =>
        destruct (copy_loop signal_at dest s w1) as [[[]|e] w2] eqn:Hrun
    end; intros H; inversion H; subst;
    (eapply copy_loop_success_fs in Hrun; [|simpl; apply lookup_insert_eq]);
    simpl in Hrun; rewrite read_chunks_bytes in Hrun; simpl in Hrun;
    eexists; rewrite Hrun; apply insert_insert_eq.
Qed.

Lemma strftime_compact_nonempty (t : DateTime) :
  (1 <= String.length (strftime compact_format t))%nat.
Proof. unfold strftime, compact_format. simpl. rewrite !string_length_app. simpl. lia. Qed.

Lemma long_name_file_name (dir : PathBuf) (name : string) :
  (3 <= String.length name)%nat -> file_name (dir ++ [name])%list = Some name.
Proof.
  intros Hl. unfold file_name. rewrite last_snoc.
  destruct (String.eqb_spec name "/") as [->|]; [simpl in Hl; lia|].
  destruct (String.eqb_spec name ".") as [->|]; [simpl in Hl; lia|].
  destruct (String.eqb_spec name "..") as [->|]; [simpl in Hl; lia|].
  reflexivity.
Qed.

(** The backup name is longer than the source's name, by at least the
    two dashes and the timestamp. *)
Lemma generate_backup_name_ok (now : DateTime) (source : PathBuf) (config : Config)
  (backup_path : PathBuf) :
  generate_backup_name now source config = Ok backup_path ->
  exists source_name backup_name,
    file_name source = Some source_name
    /\ backup_path = (removelast source ++ [backup_name])%list
    /\ file_name backup_path = Some backup_name
    /\ (String.length source_name < String.length backup_name)%nat.
Proof.
  unfold generate_backup_name. rewrite format_timestamp_fallback.
  destruct (file_name source) as [sname|] eqn:Hf; [|discriminate].
  pose proof (strftime_compact_nonempty now) as Hts.
  assert (Hlen : let '(stem, extension) := split_filename sname in
            let n := String.length (backup_name_of stem extension
                                      (strftime compact_format now) (backup_suffix config)) in
            (String.length sname + 2 <= n /\ 3 <= n)%nat).
  { destruct (split_filename_cases sname)
      as [(stem & ext & Hs & _ & Hne & _ & ->)
         |[(_ & ->)|[(rest & _ & _ & _ & ->)|(stem & Hs & ->)]]];
      unfold backup_name_of; simpl;
      try (destruct (String.eqb_spec ext "") as [->|]; [contradiction|]);
      try rewrite Hs; rewrite ?string_length_app; simpl;
      rewrite ?string_length_app; simpl; lia. }
  destruct (split_filename sname) as [stem ext].
  set (gname := backup_name_of stem ext _ _) in *.
  destruct (validate_filename_length gname _); simpl; [|discriminate].
  destruct (validate_filesystem_chars gname); simpl; [|discriminate].
  intros H. injection H as <-. exists sname, gname. unfold join.
  rewrite (file_name_parent _ _ Hf).
  split; [reflexivity|]. split; [reflexivity|].
  cbv zeta in Hlen. split; [apply long_name_file_name; lia | lia].
Qed.

Lemma new_name_longer (filename : string) (n : nat) :
  let '(stem, extension) := split_filename filename in
  (String.length filename <= String.length (new_name stem extension n))%nat.
Proof.
  destruct (split_filename_cases filename)
    as [(stem & ext & Hs & _ & Hne & _ & ->)
       |[(_ & ->)|[(rest & _ & _ & _ & ->)|(stem & Hs & ->)]]];
    unfold new_name; simpl;
    try (destruct (String.eqb_spec ext "") as [->|]; [contradiction|]);
    try rewrite Hs; rewrite ?string_length_app; simpl;
    rewrite ?string_length_app; simpl; lia.
Qed.

Lemma probe_counters_ok (exists_at : PathBuf -> bool) (parent : PathBuf)
  (stem extension : string) (counter fuel : nat) (p : PathBuf) :
  probe_counters exists_at parent stem extension counter fuel = Ok p ->
  exists n, p = join parent (new_name stem extension n) /\ exists_at p = false.
Proof.
  revert counter. induction fuel as [|fuel IH]; intros counter; simpl; [discriminate|].
  destruct (exists_at (join parent (new_name stem extension counter))) eqn:E;
    simpl; [apply IH|].
  intros H. injection H as <-. eauto.
Qed.

(** What [resolve_collision] returns does not exist, sits in the
    candidate's directory and has a name at least as long. *)
Lemma resolve_collision_ok (exists_at : PathBuf -> bool) (candidate : PathBuf)
  (name : string) (final : PathBuf) :
  file_name candidate = Some name ->
  resolve_collision exists_at candidate = Ok final ->
  exists_at final = false
  /\ exists fname, final = (removelast candidate ++ [fname])%list
                   /\ (String.length name <= String.length fname)%nat.
Proof.
  intros Hf. unfold resolve_collision.
  destruct (exists_at candidate) eqn:E; cbv beta iota zeta delta [negb].
  - rewrite Hf, (file_name_parent _ _ Hf).
    pose proof (new_name_longer name) as Hlong.
    destruct (split_filename name) as [stem ext].
    intros H. apply probe_counters_ok in H as (n & -> & Hfree).
    split; [exact Hfree|]. exists (new_name stem ext n). split; [reflexivity|apply Hlong].
  - intros H. injection H as <-. split; [exact E|].
    exists name. split; [apply file_name_last, Hf | lia].
Qed.

(** The source, the temporary path and the final path of a single-file
    backup are three distinct paths. *)
Lemma backup_paths_distinct (now : DateTime) (process_id : nat) (source : PathBuf)
  (config : Config) (exists_at : PathBuf -> bool)
  (backup_path final temp : PathBuf) :
  generate_backup_name now source config = Ok backup_path ->
  resolve_collision exists_at backup_path = Ok final ->
  create_temp_backup_path process_id final = Ok temp ->
  temp <> source /\ temp <> final.
Proof.
  intros Hg Hr Ht.
  apply generate_backup_name_ok in Hg as (sname & gname & Hs & -> & Hfb & Hlt1).
  apply (resolve_collision_ok _ _ _ _ Hfb) in Hr as (_ & fname & Hfinal & Hle).
  split; [|exact (create_temp_backup_path_ne _ _ _ Ht)].
  apply create_temp_backup_path_shape in Ht as (fname' & Hf' & ->).
  rewrite removelast_last in Hfinal.
  pose proof (file_name_last _ _ Hf') as Hfl.
  rewrite Hfinal in Hfl at 1. apply app_inj_tail in Hfl as [Hdir <-].
  rewrite <- Hdir, (file_name_last _ _ Hs) at 1. intros Heq.
  rewrite <- (file_name_last _ _ Hs) in Heq.
  rewrite (file_name_last _ _ Hs) in Heq at 2.
  apply app_inj_tail in Heq as [_ Heq].
  pose proof (temp_name_longer process_id fname) as Hlt2. rewrite Heq in Hlt2. lia.
Qed.

(** C3: a [backup_file] of an existing regular file that succeeds leaves a
    file with exactly the source's bytes at the returned backup path,
    distinct from the source, keeps the source as it was, leaves nothing
    at the temporary path, and reports one file and the source's length
    as measured by [calculate_size] before the copy. *)
Theorem backup_file_copies_source (signal_at : nat -> bool) (process_id : nat)
  (now : DateTime) (source : PathBuf) (config : Config) (w w' : World)
  (r : BackupResult) (perm : nat) (bytes : list byte) :
  w_fs w !! source = Some (FileNode perm bytes) ->
  backup_file signal_at process_id now source config w = (Ok r, w') ->
  (exists perm', w_fs w' !! backup_path r = Some (FileNode perm' bytes))
  /\ backup_path r <> source
  /\ w_fs w' !! source = Some (FileNode perm bytes)
  /\ (forall temp, create_temp_backup_path process_id (backup_path r) = Ok temp ->
        w_fs w' !! temp = None)
  /\ source_path r = source
  /\ files_processed r = 1
  /\ total_size r = node_len (FileNode perm bytes).
Proof.
  intros Hsrc H. unfold backup_file in H.
  apply mbind_inv in H as ([] & w1 & Hv & H).
  assert (w1 = w) as ->.
  { unfold validate_source in Hv. destruct (negb _); [discriminate|].
    destruct (String.index _ _ _); congruence. }
  apply mbind_inv in H as (bp & w2 & Hg & H).
  unfold lift in Hg. injection Hg as Hg <-.
  apply mbind_inv in H as (final & w3 & Hr & H).
  unfold resolve_collision_now in Hr. injection Hr as Hr <-.
  apply mbind_inv in H as (g & w4 & Hreg & H).
  cbv [register_operation mbind modify ret] in Hreg. injection Hreg as <- <-.
  unfold with_guard in H.
  match type of H with
  | (match ?x with _ => _ end) = _ => destruct x as [[a|e] w5] eqn:Hb
  end.
  2:{ revert H. cbv beta zeta delta [mbind fail]. destruct (guard_drop signal_at _ _) as [[[]|] ?]; discriminate. }
  cbv [mbind complete remove_operation modify guard_drop ret] in H. simpl in H.
  injection H as <- <-. simpl.
  (* the final path does not exist before the backup *)
  pose proof Hg as Hg'.
  apply generate_backup_name_ok in Hg' as (sname & gname & _ & _ & Hfb & _).
  destruct (resolve_collision_ok _ _ _ _ Hfb Hr) as [Hfree _].
  assert (Hfs : final <> source).
  { intros ->. unfold path_exists in Hfree. rewrite Hsrc in Hfree.
    rewrite bool_decide_eq_false in Hfree. apply Hfree. eauto. }
  (* the body *)
  apply mbind_inv in Hb as (size & w6 & Hcs & Hb).
  cbv [calculate_size mbind metadata ret] in Hcs. simpl in Hcs.
  rewrite Hsrc in Hcs. injection Hcs as <- <-.
  apply mbind_inv in Hb as (temp & w7 & Ht & Hb).
  unfold lift in Ht. injection Ht as Ht <-.
  destruct (backup_paths_distinct now process_id source config _ bp final temp Hg Hr Ht)
    as [Hts Htf].
  apply mbind_inv in Hb as ([] & w8 & Hc & Hb).
  apply (copy_file_success_fs _ _ _ _ _ perm bytes) in Hc;
    [| simpl; exact Hsrc | congruence].
  destruct Hc as [pm Hc]. simpl in Hc.
  apply mbind_inv in Hb as ([] & w9 & Hp & Hb).
  assert (Hp' : exists pm', w_fs w9 = <[temp := FileNode pm' bytes]> (w_fs w)).
  { destruct (preserve_permissions config).
    - apply mbind_inv in Hp as ([] & w10 & Hperm & Hstamp).
      cbv [copy_permissions mbind metadata set_permissions] in Hperm.
      rewrite Hc, lookup_insert_ne in Hperm by congruence.
      rewrite Hsrc in Hperm. simpl in Hperm.
      rewrite Hc, lookup_insert_eq in Hperm. injection Hperm as <-.
      cbv [copy_timestamps mbind metadata ret] in Hstamp. simpl in Hstamp.
      rewrite !lookup_insert_ne, Hsrc in Hstamp by congruence. simpl in Hstamp.
      injection Hstamp as <-. simpl. exists perm. apply insert_insert_eq.
    - injection Hp as <-. eauto. }
  destruct Hp' as [pm' Hp'].
  apply mbind_inv in Hb as ([] & w10 & Hrn & Hb).
  cbv [rename] in Hrn. rewrite Hp', lookup_insert_eq in Hrn.
  rewrite lookup_insert_ne in Hrn by congruence.
  assert (Hw10 : w_fs w10 = <[final := FileNode pm' bytes]>
                              (delete temp (<[temp := FileNode pm' bytes]> (w_fs w)))).
  { destruct (w_fs w !! final) as [[]|]; inversion Hrn; reflexivity. }
  cbv [ret] in Hb. injection Hb as <- <-. simpl.
  rewrite Hw10, delete_insert_eq.
  split; [exists pm'; apply lookup_insert_eq|].
  split; [exact Hfs|].
  split; [rewrite lookup_insert_ne, lookup_delete_ne by congruence; exact Hsrc|].
  split; [|auto].
  intros temp' Ht'. rewrite Ht in Ht'. injection Ht' as <-.
  rewrite lookup_insert_ne by congruence. apply lookup_delete_eq.
Qed.

(* ------------------------------------------------------------------ *)
(** ** Runs on the sample state *)

(** A backup of [/tmp/a.txt] with a Ctrl-C after the first chunk: the
    copy into the temporary file is interrupted and the filesystem is left
    as it was. *)
Example interrupted_backup_demo :
  backup_file (fun n => Nat.eqb n 1) 7 demo_now demo_source default_config demo_world
  = (Err Interrupted,
     mkWorld (w_fs demo_world) {[demo_backup]} true 3).
Proof. vm_compute. reflexivity. Qed.

Example backup_demo :
  backup_file (fun _ => false) 7 demo_now demo_source default_config demo_world
  = (Ok (mkBackupResult demo_source demo_backup 1 3),
     mkWorld (<[demo_backup := FileNode 420 demo_bytes]> (w_fs demo_world)) ∅ false 2).
Proof. vm_compute. reflexivity. Qed.


(* ================================================================== *)
(** * Properties of the rest of the code *)

Lemma count_files_loop_copy (config : Config) (visit : DirEntry -> nat)
  (copy : DirEntry -> Result (nat * nat)) (entries : list DirEntry) :
  Forall (fun e => exists s, copy e = Ok (visit e, s)) entries ->
  exists s, walk_entries config false copy entries
            = Ok (count_files_loop config visit entries, s).
Proof.
  induction 1 as [|e rest [s He] _ [s' IH]]; simpl; [eauto|].
  destruct (negb _ && _); [eauto|].
  rewrite He. simpl. rewrite IH. simpl. eauto.
Qed.

Lemma count_files_entry_copy (config : Config) :
  forall entry, exists s,
    copy_directory_contents_entry config false entry = Ok (count_files_entry config entry, s).
Proof.
  fix IH 1.
  assert (Hl : forall children,
             Forall (fun e => exists s, copy_directory_contents_entry config false e
                                        = Ok (count_files_entry config e, s)) children).
  { fix IHl 1. intros [|e rest]; constructor; [apply IH | apply IHl]. }
  intros [name len | name children | name [[n l|n children|n t]|]]; simpl.
  - eauto.
  - apply count_files_loop_copy, Hl.
  - destruct (follow_symlinks config); eauto.
  - destruct (follow_symlinks config); [apply count_files_loop_copy, Hl | eauto].
  - destruct (follow_symlinks config); eauto.
  - destruct (follow_symlinks config); eauto.
Qed.


Lemma cleanup_temp_loop_spec (l : list PathBuf) (w : World) :
  NoDup l ->
  exists w', cleanup_temp_loop l w = (Ok tt, w')
    /\ w_active w' = w_active w
    /\ forall q, w_fs w' !! q = if bool_decide (q ∈ l) && temp_file_at q (w_fs w !! q)
                               then None else w_fs w !! q.
Proof.
  revert w. induction l as [|p l IH]; intros w Hnd.
  - exists w. split; [reflexivity|]. split; [reflexivity|].
    intros q. rewrite bool_decide_eq_false_2 by set_solver. reflexivity.
  - apply NoDup_cons in Hnd as [Hp Hnd]. simpl. unfold mbind.
    set (step := match file_name p with
                 | Some f => if String.prefix ".qbak_temp_" f then remove_file_ignored p
                             else ret tt
                 | None => ret tt
                 end).
    assert (Hstep : exists w1, step w = (Ok tt, w1) /\ w_active w1 = w_active w
              /\ forall q, w_fs w1 !! q = if bool_decide (q = p) && temp_file_at q (w_fs w !! q)
                                          then None else w_fs w !! q).
    { unfold step, temp_file_at.
      destruct (file_name p) as [f|] eqn:Hf;
        [destruct (String.prefix ".qbak_temp_" f) eqn:Hpre|].
      - cbv [remove_file_ignored remove_file].
        destruct (w_fs w !! p) as [[perm b|perm]|] eqn:Hn; eexists; (split; [reflexivity|]);
          (split; [reflexivity|]); intros q; simpl;
          (destruct (decide (q = p)) as [->|Hne];
           [rewrite bool_decide_eq_true_2 by reflexivity; rewrite Hf, Hpre, Hn; simpl;
            try apply lookup_delete_eq; reflexivity
           |rewrite bool_decide_eq_false_2 by exact Hne; simpl;
            try apply lookup_delete_ne; try congruence; reflexivity]).
      - eexists. split; [reflexivity|]. split; [reflexivity|]. intros q.
        destruct (decide (q = p)) as [->|Hne].
        + rewrite Hf, Hpre. now rewrite andb_false_r.
        + now rewrite bool_decide_eq_false_2.
      - eexists. split; [reflexivity|]. split; [reflexivity|]. intros q.
        destruct (decide (q = p)) as [->|Hne].
        + rewrite Hf. now rewrite andb_false_r.
        + now rewrite bool_decide_eq_false_2. }
    destruct Hstep as (w1 & Hs & Ha1 & Hq1). rewrite Hs.
    destruct (IH w1 Hnd) as (w' & Hrun & Ha' & Hq'). exists w'.
    split; [exact Hrun|]. split; [congruence|]. intros q. rewrite Hq', !Hq1.
    destruct (decide (q = p)) as [->|Hne].
    + rewrite (bool_decide_eq_false_2 (p ∈ l)) by exact Hp.
      rewrite (bool_decide_eq_true_2 (p ∈ p :: l)) by set_solver.
      rewrite bool_decide_eq_true_2 by reflexivity. reflexivity.
    + rewrite (bool_decide_eq_false_2 (q = p)) by exact Hne. simpl.
      destruct (decide (q ∈ l)) as [Hin|Hin].
      * rewrite !bool_decide_eq_true_2 by set_solver. reflexivity.
      * rewrite !bool_decide_eq_false_2 by set_solver. reflexivity.
Qed.

Lemma read_dir_spec (fs : FileSystem) (dir : PathBuf) (name : string) :
  (dir ++ [name])%list ∈ read_dir fs dir <-> is_Some (fs !! (dir ++ [name])%list).
Proof.
  unfold read_dir. rewrite list_elem_of_In, filter_In, in_map_iff.
  destruct (dir ++ [name])%list as [|c cs] eqn:E; [destruct dir; discriminate|].
  rewrite <- E, removelast_last, bool_decide_eq_true_2 by reflexivity.
  split.
  - intros [([k v] & Hk & Hin) _]. simpl in Hk. subst k.
    apply list_elem_of_In, elem_of_map_to_list in Hin. eauto.
  - intros [v Hv]. split; [|reflexivity].
    exists ((dir ++ [name])%list, v). split; [reflexivity|].
    apply list_elem_of_In. now apply elem_of_map_to_list.
Qed.

Lemma read_dir_child (fs : FileSystem) (dir q : PathBuf) :
  q ∈ read_dir fs dir -> exists name, q = (dir ++ [name])%list.
Proof.
  unfold read_dir. rewrite list_elem_of_In, filter_In. intros [_ Hq].
  destruct (exists_last (l := q)) as (l & a & Hl); [intros ->; discriminate|].
  subst q. exists a. destruct (l ++ [a])%list eqn:E; [destruct l; discriminate|].
  rewrite <- E, removelast_last in Hq. apply bool_decide_eq_true_1 in Hq. now subst.
Qed.

Lemma read_dir_NoDup (fs : FileSystem) (dir : PathBuf) : NoDup (read_dir fs dir).
Proof.
  apply NoDup_ListNoDup, List.NoDup_filter, NoDup_ListNoDup.
  assert (E : forall l : list (PathBuf * Node), map fst l = l.*1)
    by (induction l as [|x l IH]; [reflexivity|]; simpl; rewrite IH; reflexivity).
  rewrite E. apply NoDup_fst_map_to_list.
Qed.

Lemma prefix_length (s1 s2 : string) :
  String.prefix s1 s2 = true -> (String.length s1 <= String.length s2)%nat.
Proof.
  revert s2. induction s1 as [|a s1 IH]; intros [|b s2]; simpl; try lia; try discriminate.
  destruct (ascii_dec a b); [intros H; apply IH in H; lia | discriminate].
Qed.

Lemma prefix_app (s t : string) : String.prefix s (s ++ t) = true.
Proof.
  induction s as [|a s IH]; simpl; [now destruct t|].
  destruct (ascii_dec a a); [exact IH | contradiction].
Qed.

Lemma file_name_snoc (dir : PathBuf) (name f : string) :
  file_name (dir ++ [name])%list = Some f -> f = name.
Proof.
  unfold file_name. rewrite last_snoc. destruct (_ || _); congruence.
Qed.

(** X3: [cleanup_temp_files dir] does nothing and returns [Ok] when [dir]
    is not a directory; otherwise it returns [Ok] or the I/O error of
    [fs::read_dir].  It never touches the registry, and the only paths it
    changes are regular files directly in [dir] whose names start with
    the temporary prefix, which it removes. *)
Theorem cleanup_temp_files_only_temp_files (dir : PathBuf) (w : World) :
  let w' := snd (cleanup_temp_files dir w) in
  (is_dir_node (w_fs w !! dir) = false -> cleanup_temp_files dir w = (Ok tt, w))
  /\ (fst (cleanup_temp_files dir w) = Ok tt
      \/ exists kind, fst (cleanup_temp_files dir w) = Err (Io kind))
  /\ w_active w' = w_active w
  /\ (forall q, w_fs w' !! q <> w_fs w !! q ->
        exists name perm bytes,
          q = (dir ++ [name])%list
          /\ String.prefix ".qbak_temp_" name = true
          /\ w_fs w !! q = Some (FileNode perm bytes)
          /\ w_fs w' !! q = None).
Proof.
  intros w'. unfold w', cleanup_temp_files.
  destruct (w_fs w !! dir) as [[perm0 b0|perm0]|] eqn:Hdir; simpl.
  1, 3: split; [reflexivity|]; split; [left; reflexivity|]; split; [reflexivity|];
        intros q H; congruence.
  split; [discriminate|].
  destruct (owner_can_read perm0); simpl.
  2:{ split; [right; eauto|]. split; [reflexivity|]. intros q H; congruence. }
  destruct (cleanup_temp_loop_spec (read_dir (w_fs w) dir) w (read_dir_NoDup _ _))
    as (w2 & Hrun & Ha & Hq).
  rewrite Hrun. simpl.
  assert (Hrm : forall name perm bytes,
             String.prefix ".qbak_temp_" name = true ->
             w_fs w !! (dir ++ [name])%list = Some (FileNode perm bytes) ->
             w_fs w2 !! (dir ++ [name])%list = None).
  { intros name perm bytes Hpre Hn. rewrite Hq.
    rewrite bool_decide_eq_true_2 by (apply read_dir_spec; rewrite Hn; eauto).
    unfold temp_file_at. rewrite Hn.
    pose proof (prefix_length _ _ Hpre) as Hl. simpl in Hl.
    rewrite long_name_file_name by lia. now rewrite Hpre. }
  split; [left; reflexivity|]. split; [exact Ha|].
  intros q Hne. rewrite Hq in Hne.
  destruct (bool_decide (q ∈ read_dir (w_fs w) dir)) eqn:Hin; [|contradiction].
  apply bool_decide_eq_true_1, read_dir_child in Hin as [name ->].
  unfold temp_file_at in Hne.
  destruct (file_name (dir ++ [name])%list) as [f|] eqn:Hf; [|contradiction].
  apply file_name_snoc in Hf as ->.
  destruct (String.prefix ".qbak_temp_" name) eqn:Hpre; [|contradiction].
  destruct (w_fs w !! (dir ++ [name])%list) as [[perm bytes|perm]|] eqn:Hn;
    try contradiction.
  exists name, perm, bytes. repeat split; auto. eapply Hrm; eauto.
Qed.

(** X4: [validate_backup_filename] fails with [BackupExists] on an
    existing path and with [PermissionDenied] on the empty parent of a
    bare relative name.  Whatever it returns, it leaves the registry alone
    and changes no path other than its probe file in the parent
    directory. *)
Theorem validate_backup_filename_effects (process_id : nat) (path : PathBuf) (w : World) :
  (std_path_exists (w_fs w) path = true ->
   validate_backup_filename process_id path w = (Err (BackupExists path), w))
  /\ (forall name, path = [name] -> name <> "/" -> std_path_exists (w_fs w) path = false ->
      validate_backup_filename process_id path w = (Err (PermissionDenied []), w))
  /\ (let w' := snd (validate_backup_filename process_id path w) in
      w_active w' = w_active w
      /\ forall q, (forall d, parent path = Some d ->
                              q <> join d (".qbak_test_" ++ decimal process_id)) ->
         w_fs w' !! q = w_fs w !! q).
Proof.
  unfold validate_backup_filename. split; [|split].
  - intros H. now rewrite H.
  - intros name -> Hn Hex. rewrite Hex. simpl.
    destruct (String.eqb_spec name "/"); [contradiction|]. reflexivity.
  - cbv zeta. destruct (std_path_exists (w_fs w) path); [simpl; auto|].
    destruct (parent path) as [d|]; [|simpl; auto].
    destruct (std_path_exists (w_fs w) d); [|simpl; auto].
    set (t := join d _).
    assert (Hq : forall q, (forall d', Some d = Some d' ->
                                      q <> join d' (".qbak_test_" ++ decimal process_id)) ->
                           q <> t)
      by (intros q H; apply (H d); reflexivity).
    unfold file_create.
    destruct (negb (parent_is_dir (w_fs w) t)); [simpl; auto|].
    destruct (w_fs w !! t) as [[perm b|perm]|] eqn:Ht; simpl; [| auto |];
      unfold remove_file; simpl; rewrite lookup_insert_eq; simpl;
      (split; [reflexivity|]); intros q Hnq; apply Hq in Hnq;
      rewrite lookup_delete_ne, lookup_insert_ne by congruence; reflexivity.
Qed.

Lemma ascii_lower_upper (c : ascii) : ascii_lower (ascii_upper c) = ascii_lower c.
Proof. destruct c as [[] [] [] [] [] [] [] []]; reflexivity. Qed.

Lemma ascii_lower_idem (c : ascii) : ascii_lower (ascii_lower c) = ascii_lower c.
Proof. destruct c as [[] [] [] [] [] [] [] []]; reflexivity. Qed.

Lemma to_lowercase_upper (s : string) : to_lowercase (to_uppercase s) = to_lowercase s.
Proof.
  unfold to_lowercase, to_uppercase. rewrite list_ascii_of_string_of_list_ascii, map_map.
  f_equal. apply map_ext, ascii_lower_upper.
Qed.

Lemma to_lowercase_idem (s : string) : to_lowercase (to_lowercase s) = to_lowercase s.
Proof.
  unfold to_lowercase. rewrite list_ascii_of_string_of_list_ascii, map_map.
  f_equal. apply map_ext, ascii_lower_idem.
Qed.

(** X5: on ASCII text ([is_ascii_text]), [parse_bool]
    ignores letter case: upper- or lower-casing the value does not change
    what it parses to.  (Rust's Unicode case mappings agree with the ASCII
    ones there; beyond ASCII they do not, e.g. for the long s.) *)
Theorem parse_bool_ignores_case (value : string) :
  is_ascii_text value = true ->
  parse_bool (to_uppercase value) = parse_bool value
  /\ parse_bool (to_lowercase value) = parse_bool value.
Proof.
  intros _. unfold parse_bool. rewrite to_lowercase_upper, to_lowercase_idem.
  split; reflexivity.
Qed.

Lemma parse_bool_ignores_case_witness :
  is_ascii_text "YeS" = true
  /\ parse_bool (to_uppercase "YeS") = parse_bool "YeS"
  /\ parse_bool (to_lowercase "YeS") = parse_bool "YeS".
Proof.
  assert (H : is_ascii_text "YeS" = true) by reflexivity.
  split; [exact H|]. exact (parse_bool_ignores_case "YeS" H).
Defined.

(** X6: loading the configuration values fails exactly when
    max_filename_length is present and not a valid usize, with that
    message; an unparsable boolean keeps the default; with no key at all
    the result is the default configuration. *)
Theorem load_config_values_errors (get : string -> option string) :
  (forall e, load_config_values get = Err e <->
     exists value, get "max_filename_length" = Some value /\ parse_usize value = None
                   /\ e = ConfigError ("Invalid max_filename_length: " ++ value))
  /\ (forall config, load_config_values get = Ok config ->
      (forall value, get "preserve_permissions" = Some value -> parse_bool value = None ->
         preserve_permissions config = preserve_permissions default_config)
      /\ (forall value, get "follow_symlinks" = Some value -> parse_bool value = None ->
         follow_symlinks config = follow_symlinks default_config)
      /\ (forall value, get "include_hidden" = Some value -> parse_bool value = None ->
         include_hidden config = include_hidden default_config))
  /\ ((forall key, get key = None) -> load_config_values get = Ok default_config).
Proof.
  unfold load_config_values. split; [|split].
  - intros e. destruct (get "max_filename_length") as [v|].
    + destruct (parse_usize v) as [n|] eqn:Hpv; simpl; split.
      * discriminate.
      * intros (v' & Hv & Hp & _). injection Hv as <-. congruence.
      * intros H. injection H as <-. eauto.
      * intros (v' & Hv & Hp & ->). now injection Hv as <-.
    + simpl. split; [discriminate|]. intros (v' & Hv & _). discriminate.
  - intros config H.
    destruct (get "max_filename_length") as [v|]; [destruct (parse_usize v)|];
      simpl in H; try discriminate; injection H as <-; simpl;
      (split; [|split]); intros value Hv Hp; rewrite Hv, Hp; reflexivity.
  - intros Hnone. rewrite !Hnone. reflexivity.
Qed.

Lemma to_uint_not_nil (n : nat) : Nat.to_uint n <> Decimal.Nil.
Proof.
  intros H. pose proof (DecimalNat.Unsigned.of_to n) as E. rewrite H in E.
  simpl in E. subst n. discriminate.
Qed.

Lemma N_of_uint_nat (d : Decimal.uint) : N.of_uint d = N.of_nat (Nat.of_uint d).
Proof.
  rewrite DecimalNat.Unsigned.of_uint_alt.
  change (N.of_uint d) with (Pos.of_uint d). rewrite DecimalPos.Unsigned.of_uint_alt.
  generalize (Decimal.rev d) as u. induction u as [|u IH|u IH|u IH|u IH|u IH|u IH|u IH|u IH|u IH|u IH];
    cbn [DecimalNat.Unsigned.of_lu DecimalPos.Unsigned.of_lu]; try rewrite IH; lia.
Qed.

Lemma parse_usize_decimal (n : nat) :
  (N.of_nat n < 2 ^ 64)%N ->
  parse_usize (decimal n) = Some n /\ parse_usize ("+" ++ decimal n) = Some n.
Proof.
  intros Hb. unfold parse_usize, decimal.
  assert (Hd : NilZero.uint_of_string (NilZero.string_of_uint (Nat.to_uint n)) = Some (Nat.to_uint n))
    by (apply NilZero.usu, to_uint_not_nil).
  assert (Hv : N.of_uint (Nat.to_uint n) = N.of_nat n)
    by (rewrite N_of_uint_nat, DecimalNat.Unsigned.of_to; reflexivity).
  assert (Hk : (if (N.of_uint (Nat.to_uint n) <? 2 ^ 64)%N
                then Some (N.to_nat (N.of_uint (Nat.to_uint n))) else None) = Some n).
  { rewrite Hv. apply N.ltb_lt in Hb. rewrite Hb, Nat2N.id. reflexivity. }
  split.
  - pose proof (to_uint_not_nil n) as Hnn.
    destruct (Nat.to_uint n) as [|u|u|u|u|u|u|u|u|u|u] eqn:E; [contradiction| | | | | | | | | |];
      simpl; simpl in Hd; rewrite Hd; exact Hk.
  - change ("+" ++ NilZero.string_of_uint (Nat.to_uint n))
      with (String "+"%char (NilZero.string_of_uint (Nat.to_uint n))).
    cbv beta iota. rewrite Hd. exact Hk.
Qed.

(** X7: a max_filename_length written in decimal, with or without a
    leading plus sign, is loaded as that number when it fits in 64 bits. *)
Theorem max_filename_length_roundtrip (get : string -> option string) (n : nat) :
  (N.of_nat n < 2 ^ 64)%N ->
  (get "max_filename_length" = Some (decimal n)
   \/ get "max_filename_length" = Some ("+" ++ decimal n)) ->
  exists config, load_config_values get = Ok config /\ max_filename_length config = n.
Proof.
  intros Hb Hv. destruct (parse_usize_decimal n Hb) as [H1 H2].
  unfold load_config_values.
  destruct Hv as [Hv|Hv]; rewrite Hv; [rewrite H1|rewrite H2]; simpl; eexists; split; reflexivity.
Qed.

Lemma run_targets_exit (process_target : string -> M unit) (targets : list string)
  (s e : nat) (w : World) :
  let code := main (fst (run_targets process_target targets s e w)) in
  (code = 0 <-> e = 0 /\ Forall (fun r => r = Ok tt) (target_results process_target targets w))
  /\ (code = 130 <-> Err Interrupted ∈ target_results process_target targets w).
Proof.
  revert s e w. induction targets as [|t rest IH]; intros s e w; simpl.
  - destruct (0 <? e)%nat eqn:E; simpl.
    + apply Nat.ltb_lt in E. split; split.
      * discriminate.
      * intros [H _]; lia.
      * discriminate.
      * intros H; apply elem_of_nil in H as [].
    + apply Nat.ltb_ge in E. split; split.
      * intros _. split; [lia | constructor].
      * reflexivity.
      * discriminate.
      * intros H; apply elem_of_nil in H as [].
  - destruct (process_target t w) as [[[]|err] w'] eqn:Hp.
    + destruct (IH (S s) e w') as [H0 H130]. split.
      * rewrite H0. rewrite Forall_cons. intuition.
      * rewrite H130. rewrite elem_of_cons. intuition discriminate.
    + destruct (is_recoverable err) eqn:Hr.
      * destruct (IH s (S e) w') as [H0 H130]. split.
        -- rewrite H0. rewrite Forall_cons. split; [intros [H _]; lia|intros [_ [H _]]; discriminate].
        -- rewrite H130. rewrite elem_of_cons. split; [intuition|].
           intros [H|H]; [inversion H; subst; discriminate | exact H].
      * simpl. split.
        -- rewrite Forall_cons. split; [destruct err; simpl; discriminate|intros [_ [H _]]; discriminate].
        -- rewrite elem_of_cons. split.
           ++ destruct err; simpl; intros H; try discriminate; left; reflexivity.
           ++ intros [H|H]; [inversion H; reflexivity | apply elem_of_nil in H as []].
Qed.

(** X8: for a run that returns (one not ended by the Ctrl-C handler),
    [--dump-config] gives exit status 0, or the exit code of the error of
    [dump_config].  Otherwise the exit status is 2 when no target is given;
    with targets it is 0 exactly when every processed target succeeded,
    and 130 exactly when one of them was interrupted. *)
Theorem run_exit_status (dump_config_flag : bool) (dump_config : Result unit)
  (process_target : string -> M unit) (targets : option (list string)) (w : World) :
  let code := main (fst (run dump_config_flag dump_config process_target targets w)) in
  (dump_config_flag = true ->
   code = match dump_config with Ok _ => 0 | Err e => exit_code e end)
  /\ (dump_config_flag = false -> targets = None -> code = 2)
  /\ (dump_config_flag = false -> forall ts, targets = Some ts ->
      (code = 0 <-> Forall (fun r => r = Ok tt) (target_results process_target ts w))
      /\ (code = 130 <-> Err Interrupted ∈ target_results process_target ts w)).
Proof.
  intros code. unfold code, run. split; [|split].
  - intros ->. destruct dump_config; reflexivity.
  - intros -> ->. reflexivity.
  - intros -> ts ->. destruct (run_targets_exit process_target ts 0 0 w) as [H0 H130].
    split; [|exact H130]. rewrite H0. intuition.
Qed.

(** X9: [should_show_progress] is false when progress is disabled, true
    when it is enabled and forced, and otherwise monotone in the file
    count and the total size. *)
Theorem should_show_progress_rules (config : ProgressConfig) (file_count total_size : nat)
  (force_progress : bool) :
  (enabled config = false -> should_show_progress config file_count total_size force_progress = false)
  /\ (enabled config = true -> force_progress || force_enabled config = true ->
      should_show_progress config file_count total_size force_progress = true)
  /\ (forall file_count' total_size', (file_count <= file_count')%nat ->
      (total_size <= total_size')%nat ->
      should_show_progress config file_count total_size force_progress = true ->
      should_show_progress config file_count' total_size' force_progress = true).
Proof.
  unfold should_show_progress. split; [|split].
  - intros ->. reflexivity.
  - intros -> H. destruct force_progress; [reflexivity|]. simpl in H. now rewrite H.
  - intros f' s' Hf Hs. destruct (negb (enabled config)); [discriminate|].
    destruct force_progress; [reflexivity|]. destruct (force_enabled config); [reflexivity|].
    rewrite !orb_true_iff, !Nat.leb_le. lia.
Qed.

(** A name of eleven Japanese characters (three bytes each) and [.txt]
    at 80 columns: the slice at byte 23 falls inside a character. *)
Example format_progress_message_panics :
  format_progress_message (mkProgressConfig true false true 80 true 10 0 0)
    (Some [xe6; x97; xa5; xe6; x9c; xac; xe8; xaa; x9e; xe3; x81; xae; xe3; x83; x95;
           xe3; x82; xa1; xe3; x82; xa4; xe3; x83; xab; xe5; x90; x8d; xe3; x81; xa7;
           xe3; x81; x99; x2e; x74; x78; x74])
  = None.
Proof. vm_compute. reflexivity. Qed.

(** X10: below 120 columns, [format_progress_message] panics exactly when
    the name is longer than the budget max_len = min(width/3, 30) and the
    cut at max_len - 3 bytes is not a character boundary, which never
    happens for an ASCII name.  Otherwise the message is at most
    max(max_len, 3) bytes: a name within the budget is shown unchanged,
    and a longer one as a prefix of it followed by three dots. *)
Theorem format_progress_message_fits (config : ProgressConfig) (name : option (list byte)) :
  let filename := match name with Some n => n | None => list_byte_of_string "..." end in
  let max_len := Nat.min (terminal_width config / 3) 30 in
  (terminal_width config < 120)%nat ->
  (format_progress_message config name = None
   <-> (max_len < length filename)%nat /\ is_char_boundary filename (max_len - 3) = false)
  /\ (forall msg, format_progress_message config name = Some msg ->
      (length msg <= Nat.max max_len 3)%nat)
  /\ ((length filename <= max_len)%nat -> format_progress_message config name = Some filename)
  /\ ((max_len < length filename)%nat -> is_char_boundary filename (max_len - 3) = true ->
      exists truncated rest,
        format_progress_message config name
        = Some (truncated ++ list_byte_of_string "...")%list
        /\ filename = (truncated ++ rest)%list)
  /\ (List.Forall (fun b => Byte.to_nat b < 128)%nat filename ->
      format_progress_message config name <> None).
Proof.
  intros filename max_len Hw. unfold format_progress_message.
  fold filename. cbv zeta. fold max_len.
  assert (Hlt : (120 <=? terminal_width config)%nat = false) by (apply Nat.leb_gt; exact Hw).
  rewrite Hlt.
  destruct (Nat.ltb_spec max_len (length filename)) as [Hgt|Hle].
  - destruct (is_char_boundary filename (max_len - 3)) eqn:Hb.
    + split; [split; [discriminate | intros [_ H]; discriminate]|].
      split.
      { intros msg H. injection H as <-.
        rewrite length_app, firstn_length_le by lia. simpl. lia. }
      split; [intros H; lia|].
      split.
      { intros _ _. exists (firstn (max_len - 3) filename), (skipn (max_len - 3) filename).
        split; [reflexivity|]. symmetry. apply firstn_skipn. }
      intros _. discriminate.
    + split; [split; [intros _; split; [exact Hgt | reflexivity] | reflexivity]|].
      split; [discriminate|]. split; [intros H; lia|].
      split; [intros _ H; discriminate|].
      intros Hascii. exfalso. unfold is_char_boundary in Hb.
      apply orb_false_iff in Hb as [_ Hb].
      destruct (nth_error filename (max_len - 3)) as [b|] eqn:Hn.
      * apply nth_error_In in Hn. rewrite List.Forall_forall in Hascii.
        specialize (Hascii b Hn).
        assert (Hd : (Byte.to_nat b / 64 < 2)%nat) by (apply Nat.Div0.div_lt_upper_bound; lia).
        destruct (Nat.eqb_spec (Byte.to_nat b / 64) 2); [lia | discriminate].
      * apply nth_error_None in Hn. lia.
  - split; [split; [discriminate | intros [H _]; lia]|].
    split; [intros msg H; injection H as <-; lia|].
    split; [reflexivity|]. split; [intros H; lia|]. intros _. discriminate.
Qed.

Lemma cleanup_paths_frame (l : list PathBuf) (w : World) (q : PathBuf) :
  Forall (fun p => is_prefix p q = false) l ->
  w_fs (snd (cleanup_paths l w)) !! q = w_fs w !! q
  /\ w_active (snd (cleanup_paths l w)) = w_active w.
Proof.
  revert w; induction l as [|p l IH]; intros w Hq; [split; reflexivity|].
  apply Forall_cons in Hq as [Hp Hq]. simpl. unfold mbind.
  destruct (if path_exists (w_fs w) p then _ else _) as [r w1] eqn:E.
  destruct (cleanup_step_spec p w r w1 E) as (-> & Ha & Hc).
  assert (Hne : p <> q) by (intros ->; rewrite is_prefix_refl in Hp; discriminate).
  assert (H1 : w_fs w1 !! q = w_fs w !! q).
  { destruct Hc as [[-> _]|[(perm & b & _ & ->)|(perm & _ & _ & ->)]]; [reflexivity| |].
    - now apply lookup_delete_ne.
    - destruct (w_fs w !! q) as [v|] eqn:Hv.
      + apply map_lookup_filter_Some. split; [exact Hv | exact Hp].
      + apply map_lookup_filter_None. left; exact Hv. }
  destruct (IH w1 Hq) as [H3 H4]. split; congruence.
Qed.


(** X12: a successful [backup_file] of a regular file finds its backup
    path free, and its only effect on the filesystem is the new backup
    holding the source bytes (with the source permissions when they are
    preserved), its temporary path being absent. *)
Theorem backup_file_frame (signal_at : nat -> bool) (process_id : nat)
  (now : DateTime) (source : PathBuf) (config : Config) (w w' : World)
  (r : BackupResult) (perm : nat) (bytes : list byte) :
  w_fs w !! source = Some (FileNode perm bytes) ->
  backup_file signal_at process_id now source config w = (Ok r, w') ->
  w_fs w !! backup_path r = None
  /\ exists temp perm',
       create_temp_backup_path process_id (backup_path r) = Ok temp
       /\ (preserve_permissions config = true -> perm' = perm)
       /\ w_fs w' = <[backup_path r := FileNode perm' bytes]> (delete temp (w_fs w)).
Proof.
  intros Hsrc H. unfold backup_file in H.
  apply mbind_inv in H as ([] & w1 & Hv & H).
  assert (w1 = w) as ->.
  { unfold validate_source in Hv. destruct (negb _); [discriminate|].
    destruct (String.index _ _ _); congruence. }
  apply mbind_inv in H as (bp & w2 & Hg & H).
  unfold lift in Hg. injection Hg as Hg <-.
  apply mbind_inv in H as (final & w3 & Hr & H).
  unfold resolve_collision_now in Hr. injection Hr as Hr <-.
  apply mbind_inv in H as (g & w4 & Hreg & H).
  cbv [register_operation mbind modify ret] in Hreg. injection Hreg as <- <-.
  unfold with_guard in H.
  match type of H with
  | (match ?x with _ => _ end) = _ => destruct x as [[a|e] w5] eqn:Hb
  end.
  2:{ revert H. cbv beta zeta delta [mbind fail]. destruct (guard_drop signal_at _ _) as [[[]|] ?]; discriminate. }
  cbv [mbind complete remove_operation modify guard_drop ret] in H. simpl in H.
  injection H as <- <-. simpl.
  pose proof Hg as Hg'.
  apply generate_backup_name_ok in Hg' as (sname & gname & _ & _ & Hfb & _).
  destruct (resolve_collision_ok _ _ _ _ Hfb Hr) as [Hfree _].
  assert (Hnone : w_fs w !! final = None).
  { unfold path_exists in Hfree. rewrite bool_decide_eq_false in Hfree.
    destruct (w_fs w !! final); [exfalso; apply Hfree; eauto | reflexivity]. }
  assert (Hfs : final <> source) by congruence.
  apply mbind_inv in Hb as (size & w6 & Hcs & Hb).
  cbv [calculate_size mbind metadata ret] in Hcs. simpl in Hcs.
  rewrite Hsrc in Hcs. injection Hcs as <- <-.
  apply mbind_inv in Hb as (temp & w7 & Ht & Hb).
  unfold lift in Ht. injection Ht as Ht <-.
  destruct (backup_paths_distinct now process_id source config _ bp final temp Hg Hr Ht)
    as [Hts Htf].
  apply mbind_inv in Hb as ([] & w8 & Hc & Hb).
  apply (copy_file_success_fs _ _ _ _ _ perm bytes) in Hc;
    [| simpl; exact Hsrc | congruence].
  destruct Hc as [pm Hc]. simpl in Hc.
  apply mbind_inv in Hb as ([] & w9 & Hp & Hb).
  assert (Hp' : exists pm', (preserve_permissions config = true -> pm' = perm)
                            /\ w_fs w9 = <[temp := FileNode pm' bytes]> (w_fs w)).
  { destruct (preserve_permissions config).
    - apply mbind_inv in Hp as ([] & w10 & Hperm & Hstamp).
      cbv [copy_permissions mbind metadata set_permissions] in Hperm.
      rewrite Hc, lookup_insert_ne in Hperm by congruence.
      rewrite Hsrc in Hperm. simpl in Hperm.
      rewrite Hc, lookup_insert_eq in Hperm. injection Hperm as <-.
      cbv [copy_timestamps mbind metadata ret] in Hstamp. simpl in Hstamp.
      rewrite !lookup_insert_ne, Hsrc in Hstamp by congruence. simpl in Hstamp.
      injection Hstamp as <-. simpl. exists perm.
      split; [reflexivity|]. apply insert_insert_eq.
    - injection Hp as <-. exists pm. split; [discriminate|exact Hc]. }
  destruct Hp' as (pm' & Hpm & Hp').
  apply mbind_inv in Hb as ([] & w10 & Hrn & Hb).
  cbv [rename] in Hrn. rewrite Hp', lookup_insert_eq in Hrn.
  rewrite lookup_insert_ne in Hrn by congruence.
  assert (Hw10 : w_fs w10 = <[final := FileNode pm' bytes]>
                              (delete temp (<[temp := FileNode pm' bytes]> (w_fs w)))).
  { destruct (w_fs w !! final) as [[]|]; inversion Hrn; reflexivity. }
  cbv [ret] in Hb. injection Hb as <- <-. simpl.
  rewrite Hw10, delete_insert_eq.
  split; [exact Hnone|]. exists temp, pm'.
  split; [exact Ht|]. split; [exact Hpm|reflexivity].
Qed.

(** X13: a successful [copy_file_to_backup] of a regular file into
    another directory writes the backup with the source bytes, leaves its
    temporary path absent, changes nothing else, and adds one file and the
    file length to the result. *)
Theorem copy_file_to_backup_effect (signal_at : nat -> bool) (process_id : nat)
  (source backup : PathBuf) (config : Config) (result result' : BackupResult)
  (w w' : World) (perm : nat) (bytes : list byte) :
  w_fs w !! source = Some (FileNode perm bytes) ->
  removelast source <> removelast backup ->
  copy_file_to_backup signal_at process_id source backup config result w = (Ok result', w') ->
  exists temp perm',
    create_temp_backup_path process_id backup = Ok temp
    /\ (preserve_permissions config = true -> perm' = perm)
    /\ w_fs w' = <[backup := FileNode perm' bytes]> (delete temp (w_fs w))
    /\ files_processed result' = S (files_processed result)
    /\ total_size result' = total_size result + length bytes
    /\ source_path result' = source_path result
    /\ backup_path result' = backup_path result.
Proof.
  intros Hsrc Hdir H. unfold copy_file_to_backup in H.
  apply mbind_inv in H as (temp & w1 & Ht & H).
  unfold lift in Ht. injection Ht as Ht <-.
  assert (Hts : source <> temp).
  { apply create_temp_backup_path_shape in Ht as (fname & _ & ->).
    intros ->. apply Hdir. now rewrite removelast_last. }
  assert (Hbs : source <> backup) by congruence.
  pose proof (create_temp_backup_path_ne _ _ _ Ht) as Htb.
  apply mbind_inv in H as ([] & w2 & Hc & H).
  apply (copy_file_success_fs _ _ _ _ _ perm bytes) in Hc; [|exact Hsrc|exact Hts].
  destruct Hc as [pm Hc].
  apply mbind_inv in H as ([] & w3 & Hp & H).
  assert (Hp' : exists pm', (preserve_permissions config = true -> pm' = perm)
                            /\ w_fs w3 = <[temp := FileNode pm' bytes]> (w_fs w)).
  { destruct (preserve_permissions config).
    - apply mbind_inv in Hp as ([] & w4 & Hperm & Hstamp).
      cbv [copy_permissions mbind metadata set_permissions] in Hperm.
      rewrite Hc, lookup_insert_ne in Hperm by congruence.
      rewrite Hsrc in Hperm. simpl in Hperm.
      rewrite Hc, lookup_insert_eq in Hperm. injection Hperm as <-.
      cbv [copy_timestamps mbind metadata ret] in Hstamp. simpl in Hstamp.
      rewrite !lookup_insert_ne, Hsrc in Hstamp by congruence. simpl in Hstamp.
      injection Hstamp as <-. simpl. exists perm.
      split; [reflexivity|]. apply insert_insert_eq.
    - injection Hp as <-. exists pm. split; [discriminate|exact Hc]. }
  destruct Hp' as (pm' & Hpm & Hp').
  apply mbind_inv in H as ([] & w4 & Hrn & H).
  cbv [rename] in Hrn. rewrite Hp', lookup_insert_eq in Hrn.
  assert (Hw4 : w_fs w4 = <[backup := FileNode pm' bytes]>
                            (delete temp (<[temp := FileNode pm' bytes]> (w_fs w)))).
  { rewrite lookup_insert_ne in Hrn by congruence.
    destruct (w_fs w !! backup) as [[]|]; inversion Hrn; reflexivity. }
  rewrite delete_insert_eq in Hw4.
  apply mbind_inv in H as (n & w5 & Hm & H).
  cbv [metadata] in Hm. rewrite Hw4, lookup_insert_ne, lookup_delete_ne, Hsrc in Hm
    by congruence.
  injection Hm as <- <-. cbv [ret] in H. injection H as <- <-.
  exists temp, pm'. simpl. repeat split; auto.
Qed.

(* ------------------------------------------------------------------ *)
(** ** Instances of the properties on the sample state *)

Lemma generate_backup_name_shape_witness :
  file_name demo_source = Some "a.txt" /\
  (((exists stem ext, "a.txt" = stem ++ "." ++ ext /\ stem <> "" /\ ext <> "" /\
       no_char "." ext /\ split_filename "a.txt" = (stem, ext))
    \/ (no_char "." "a.txt" /\ split_filename "a.txt" = ("a.txt", ""))
    \/ (exists rest, "a.txt" = "." ++ rest /\ rest <> "" /\ no_char "." rest /\
          split_filename "a.txt" = ("a.txt", ""))
    \/ (exists stem, "a.txt" = stem ++ "." /\ split_filename "a.txt" = (stem, "")))
   /\ (forall format, format_timestamp demo_now format = strftime compact_format demo_now)
   /\ generate_backup_name demo_now demo_source default_config =
      (let '(stem, extension) := split_filename "a.txt" in
       let backup_name :=
         backup_name_of stem extension (strftime compact_format demo_now)
           (backup_suffix default_config) in
       let? _ := validate_filename_length backup_name (max_filename_length default_config) in
       let? _ := validate_filesystem_chars backup_name in
       Ok (removelast demo_source ++ [backup_name])%list)).
Proof.
  split; [reflexivity|].
  apply (generate_backup_name_shape demo_now demo_source default_config "a.txt").
  reflexivity.
Defined.

Lemma create_temp_backup_path_name_witness :
  file_name demo_backup = Some "a-20250101T120000-qbak.txt" /\
  create_temp_backup_path 7 demo_backup =
  Ok (removelast demo_backup ++
      [(".qbak_temp_" ++ decimal 7 ++ "_" ++ "a-20250101T120000-qbak.txt")%string])%list.
Proof.
  split; [reflexivity|].
  apply (create_temp_backup_path_name 7 demo_backup "a-20250101T120000-qbak.txt").
  reflexivity.
Defined.

Lemma target_loop_recoverability_witness :
  let process_target := fun _ : string => @fail unit (SourceNotFound demo_source) in
  process_target "a.txt" demo_world = (Err (SourceNotFound demo_source), demo_world) /\
  (is_recoverable (SourceNotFound demo_source) = true <->
     (exists p, SourceNotFound demo_source = SourceNotFound p) \/
     (exists p, SourceNotFound demo_source = PermissionDenied p) \/
     (exists m, SourceNotFound demo_source = Validation m))
  /\ run_targets process_target ["a.txt"; "b.txt"] 0 0 demo_world =
     (if is_recoverable (SourceNotFound demo_source)
      then run_targets process_target ["b.txt"] 0 1 demo_world
      else (Err (SourceNotFound demo_source), demo_world))
  /\ is_recoverable Interrupted = false.
Proof.
  intros process_target. split; [reflexivity|].
  apply (target_loop_recoverability process_target "a.txt" ["b.txt"] 0 0
           demo_world demo_world (SourceNotFound demo_source)).
  reflexivity.
Defined.



Lemma backup_file_copies_source_witness :
  let r := mkBackupResult demo_source demo_backup 1 3 in
  let w' := snd (backup_file (fun _ => false) 7 demo_now demo_source default_config
                   demo_world) in
  w_fs demo_world !! demo_source = Some (FileNode 420 demo_bytes) /\
  backup_file (fun _ => false) 7 demo_now demo_source default_config demo_world
  = (Ok r, w') /\
  ((exists perm', w_fs w' !! backup_path r = Some (FileNode perm' demo_bytes))
   /\ backup_path r <> demo_source
   /\ w_fs w' !! demo_source = Some (FileNode 420 demo_bytes)
   /\ (forall temp, create_temp_backup_path 7 (backup_path r) = Ok temp ->
         w_fs w' !! temp = None)
   /\ source_path r = demo_source
   /\ files_processed r = 1
   /\ total_size r = node_len (FileNode 420 demo_bytes)).
Proof.
  intros r w'.
  assert (Hsrc : w_fs demo_world !! demo_source = Some (FileNode 420 demo_bytes))
    by (vm_compute; reflexivity).
  assert (Hrun : backup_file (fun _ => false) 7 demo_now demo_source default_config
                   demo_world = (Ok r, w')) by (vm_compute; reflexivity).
  split; [exact Hsrc|]. split; [exact Hrun|].
  exact (backup_file_copies_source (fun _ => false) 7 demo_now demo_source default_config
           demo_world w' r 420 demo_bytes Hsrc Hrun).
Defined.

(** A stale temporary file left in [/tmp] by an earlier run is removed. *)
Example cleanup_temp_files_demo :
  cleanup_temp_files ["/"; "tmp"]
    (mkWorld (<[demo_temp := FileNode 420 [x61]]> (w_fs demo_world)) ∅ false 0)
  = (Ok tt, demo_world).
Proof. vm_compute. reflexivity. Qed.

(** The backup name for [/tmp/a.txt] is free and [/tmp] is writable. *)
Example validate_backup_filename_demo :
  validate_backup_filename 7 demo_backup demo_world = (Ok tt, demo_world)
  /\ validate_backup_filename 7 demo_source demo_world
     = (Err (BackupExists demo_source), demo_world).
Proof. split; vm_compute; reflexivity. Qed.

(* ------------------------------------------------------------------ *)
(** ** Instances of the further properties *)

Lemma max_filename_length_roundtrip_witness :
  let get := fun key => if String.eqb key "max_filename_length" then Some "300" else None in
  (N.of_nat 300 < 2 ^ 64)%N
  /\ (get "max_filename_length" = Some (decimal 300)
      \/ get "max_filename_length" = Some ("+" ++ decimal 300))
  /\ exists config, load_config_values get = Ok config /\ max_filename_length config = 300%nat.
Proof.
  intros get.
  assert (Hb : (N.of_nat 300 < 2 ^ 64)%N) by (apply N.ltb_lt; vm_compute; reflexivity).
  assert (Hv : get "max_filename_length" = Some (decimal 300)
               \/ get "max_filename_length" = Some ("+" ++ decimal 300))
    by (left; vm_compute; reflexivity).
  split; [exact Hb|]. split; [exact Hv|].
  exact (max_filename_length_roundtrip get 300 Hb Hv).
Defined.

Lemma format_progress_message_fits_witness :
  let config := mkProgressConfig true false true 60 true 10 0 0 in
  let name := Some (list_byte_of_string "a-20250101T120000-qbak.txt") in
  let filename := match name with Some n => n | None => list_byte_of_string "..." end in
  let max_len := Nat.min (terminal_width config / 3) 30 in
  (terminal_width config < 120)%nat
  /\ (format_progress_message config name = None
      <-> (max_len < length filename)%nat /\ is_char_boundary filename (max_len - 3) = false)
  /\ (forall msg, format_progress_message config name = Some msg ->
      (length msg <= Nat.max max_len 3)%nat)
  /\ ((length filename <= max_len)%nat -> format_progress_message config name = Some filename)
  /\ ((max_len < length filename)%nat -> is_char_boundary filename (max_len - 3) = true ->
      exists truncated rest,
        format_progress_message config name
        = Some (truncated ++ list_byte_of_string "...")%list
        /\ filename = (truncated ++ rest)%list)
  /\ (List.Forall (fun b => Byte.to_nat b < 128)%nat filename ->
      format_progress_message config name <> None).
Proof.
  intros config name filename max_len.
  assert (Hw : (terminal_width config < 120)%nat) by (apply Nat.ltb_lt; reflexivity).
  split; [exact Hw|].
  exact (format_progress_message_fits config name Hw).
Defined.

Lemma backup_file_frame_witness :
  let r := mkBackupResult demo_source demo_backup 1 3 in
  let w' := snd (backup_file (fun _ => false) 7 demo_now demo_source default_config
                   demo_world) in
  w_fs demo_world !! demo_source = Some (FileNode 420 demo_bytes)
  /\ backup_file (fun _ => false) 7 demo_now demo_source default_config demo_world
     = (Ok r, w')
  /\ w_fs demo_world !! backup_path r = None
  /\ exists temp perm',
       create_temp_backup_path 7 (backup_path r) = Ok temp
       /\ (preserve_permissions default_config = true -> perm' = 420%nat)
       /\ w_fs w' = <[backup_path r := FileNode perm' demo_bytes]> (delete temp (w_fs demo_world)).
Proof.
  intros r w'.
  assert (Hsrc : w_fs demo_world !! demo_source = Some (FileNode 420 demo_bytes))
    by (vm_compute; reflexivity).
  assert (Hrun : backup_file (fun _ => false) 7 demo_now demo_source default_config
                   demo_world = (Ok r, w')) by (vm_compute; reflexivity).
  split; [exact Hsrc|]. split; [exact Hrun|].
  exact (backup_file_frame (fun _ => false) 7 demo_now demo_source default_config
           demo_world w' r 420 demo_bytes Hsrc Hrun).
Defined.

(** [/tmp/a.txt] copied into a directory [/bak] as part of a directory
    backup of [/tmp]. *)
Lemma copy_file_to_backup_effect_witness :
  let backup := ["/"; "bak"; "a.txt"] in
  let w := mkWorld (<[["/"; "bak"] := DirNode 493]> (w_fs demo_world)) ∅ false 0 in
  let result := mkBackupResult ["/"; "tmp"] ["/"; "bak"] 0 0 in
  let result' := mkBackupResult ["/"; "tmp"] ["/"; "bak"] 1 3 in
  let w' := snd (copy_file_to_backup (fun _ => false) 7 demo_source backup default_config
                   result w) in
  w_fs w !! demo_source = Some (FileNode 420 demo_bytes)
  /\ removelast demo_source <> removelast backup
  /\ copy_file_to_backup (fun _ => false) 7 demo_source backup default_config result w
     = (Ok result', w')
  /\ exists temp perm',
       create_temp_backup_path 7 backup = Ok temp
       /\ (preserve_permissions default_config = true -> perm' = 420%nat)
       /\ w_fs w' = <[backup := FileNode perm' demo_bytes]> (delete temp (w_fs w))
       /\ files_processed result' = S (files_processed result)
       /\ total_size result' = total_size result + length demo_bytes
       /\ source_path result' = source_path result
       /\ backup_path result' = backup_path result.
Proof.
  intros backup w result result' w'.
  assert (Hsrc : w_fs w !! demo_source = Some (FileNode 420 demo_bytes))
    by (vm_compute; reflexivity).
  assert (Hdir : removelast demo_source <> removelast backup) by discriminate.
  assert (Hrun : copy_file_to_backup (fun _ => false) 7 demo_source backup default_config
                   result w = (Ok result', w')) by (vm_compute; reflexivity).
  split; [exact Hsrc|]. split; [exact Hdir|]. split; [exact Hrun|].
  exact (copy_file_to_backup_effect (fun _ => false) 7 demo_source backup default_config
           result result' w w' 420 demo_bytes Hsrc Hdir Hrun).
Defined.
